(** * buffer-loader: the promise based XMLHttpRequest loader of [src/loader.js]

    A shallow embedding of the [Loader] class and of the part of the host
    platform it drives (promises, [Promise.all], the event listeners of an
    [XMLHttpRequest]), followed by the properties of the class.

    The host is modelled by a [world]: the loader instance, the requests it
    created with the promise each one settles, the aggregate promises built
    by [Promise.all], and a log of what left the loader (calls of the
    progress callback, exceptions that escaped a listener).  The transport
    and the user drive the world through [action]s.

    What is taken from the host: [open], [send] and the writes of
    [request.index] and [request.responseType] do not throw, and the hint
    is one of the content types of the transport, which the request then
    takes (a host ignores any other value; that is not represented);
    [request.response] is the read-only attribute it is on every
    [XMLHttpRequest]; a settlement reaches the aggregates at once (the order of
    microtasks is not represented); the progress callback is an opaque
    function whose calls are logged; an exception that leaves a listener
    is reported by the host and changes nothing else. *)

From Stdlib Require Import String Ascii ZArith NArith QArith Lia Bool.
From stdpp Require Import base tactics option list.

Local Open Scope string_scope.
Local Open Scope list_scope.
Local Set Warnings "-register-all".

(** ** JavaScript values *)

Module JS.

(** A JavaScript number.  Finite numbers are kept as exact rationals: the
    double a quotient is rounded to is not represented, the special values
    a division by zero produces are. *)
Inductive number : Type :=
| NaN
| PosInf
| NegInf
| Fin (q : Q).

Inductive value : Type :=
| VUndefined
| VNull
| VBool (b : bool)
| VNum (n : number)
| VStr (s : string)
| VArray (elems : list value)
| VObject (props : list (string * value))
| VFunction (f : nat)
| VArrayBuffer (bytes : list N)
| VError (name message : string).

Definition of_nat (n : nat) : number := Fin (inject_Z (Z.of_nat n)).
Definition of_N (n : N) : number := Fin (inject_Z (Z.of_N n)).

(** [new Error(message)] and the errors the engine raises itself (the
    wording of their messages varies with the engine; one is fixed here). *)
Definition Error (message : string) : value := VError "Error" message.
Definition TypeError (message : string) : value := VError "TypeError" message.
Definition SyntaxError (message : string) : value := VError "SyntaxError" message.

(** ToBoolean. *)
Definition truthy (v : value) : bool :=
  match v with
  | VUndefined | VNull => false
  | VBool b => b
  | VNum NaN => false
  | VNum (Fin q) => negb (Qnum q =? 0)%Z
  | VNum _ => true
  | VStr s => negb (s =? "")
  | _ => true
  end.

Definition typeof (v : value) : string :=
  match v with
  | VUndefined => "undefined"
  | VBool _ => "boolean"
  | VNum _ => "number"
  | VStr _ => "string"
  | VFunction _ => "function"
  | VNull | VArray _ | VObject _ | VArrayBuffer _ | VError _ _ => "object"
  end.

(** ToNumber on the primitives that need no parsing ([None] elsewhere). *)
Definition to_number (v : value) : option number :=
  match v with
  | VUndefined => Some NaN
  | VNull => Some (Fin 0)
  | VBool b => Some (Fin (if b then 1 else 0))
  | VNum n => Some n
  | _ => None
  end.

(** ToString, on strings only: it is applied under [typeof v === 'string']. *)
Definition string_of (v : value) : string :=
  match v with
  | VStr s => s
  | _ => ""
  end.

(** [a - b]. *)
Definition sub (a b : number) : number :=
  match a, b with
  | NaN, _ | _, NaN => NaN
  | PosInf, PosInf | NegInf, NegInf => NaN
  | PosInf, _ | _, NegInf => PosInf
  | NegInf, _ | _, PosInf => NegInf
  | Fin x, Fin y => Fin (x - y)
  end.

(** [a / b] for two non-negative integers, as the byte counts of a
    progress event are: [0/0] is NaN and [a/0] is Infinity. *)
Definition div (a b : N) : number :=
  match b with
  | N0 => if (a =? 0)%N then NaN else PosInf
  | Npos p => Fin (Z.of_N a # p)
  end.

(** The start position [indexOf] derives from its second argument:
    ToIntegerOrInfinity (NaN becomes 0), clamped to [0, len]. *)
Definition clamp_position (pos : number) (len : nat) : nat :=
  match pos with
  | NaN | NegInf => 0
  | PosInf => len
  | Fin q => Z.to_nat (Z.min (Z.max (Z.quot (Qnum q) (Z.pos (Qden q))) 0) (Z.of_nat len))
  end.

(** [String.prototype.indexOf(search, position)]. *)
Definition String_indexOf (s search : string) (position : number) : Z :=
  match String.index (clamp_position position (String.length s)) search s with
  | Some k => Z.of_nat k
  | None => -1
  end.

(** [v === s] for a string primitive [s]. *)
Definition strict_eq_string (v : value) (s : string) : bool :=
  match v with
  | VStr t => (t =? s)
  | _ => false
  end.

Fixpoint find_from (elems : list value) (search : string) (k : nat) : Z :=
  match elems with
  | [] => -1
  | v :: rest =>
      if strict_eq_string v search then Z.of_nat k else find_from rest search (S k)
  end.

(** [Array.prototype.indexOf(search, fromIndex)] for a string [search]
    (comparison is [===]). *)
Definition Array_indexOf (elems : list value) (search : string) (fromIndex : number) : Z :=
  let k := clamp_position fromIndex (length elems) in
  find_from (drop k elems) search k.

(** What a statement or a call produces: a value, or a thrown exception. *)
Inductive completion (A : Type) : Type :=
| Normal (a : A)
| Throw (e : value).
Arguments Normal {A} a.
Arguments Throw {A} e.

(** [url.indexOf(search, position)]: strings and arrays have the method,
    the other values of the model do not (objects are plain records). *)
Definition call_indexOf (url : value) (search : string) (position : number)
  : completion Z :=
  match url with
  | VStr s => Normal (String_indexOf s search position)
  | VArray elems => Normal (Array_indexOf elems search position)
  | VUndefined | VNull => Throw (TypeError "Cannot read properties of undefined or null")
  | _ => Throw (TypeError "url.indexOf is not a function")
  end.

(** The state of a promise. *)
Inductive pstate : Type :=
| Pending
| Fulfilled (v : value)
| Rejected (e : value).

Definition is_pending (p : pstate) : bool :=
  match p with Pending => true | _ => false end.

(** The values of a list of promises, when all of them are fulfilled. *)
Fixpoint fulfilled_values (ps : list pstate) : option (list value) :=
  match ps with
  | [] => Some []
  | Fulfilled v :: rest =>
      match fulfilled_values rest with
      | Some vs => Some (v :: vs)
      | None => None
      end
  | _ :: _ => None
  end.

(** The reason of the first rejected promise of a list. *)
Fixpoint first_rejected (ps : list pstate) : option value :=
  match ps with
  | [] => None
  | Rejected e :: _ => Some e
  | _ :: rest => first_rejected rest
  end.

(** [Promise.all] at creation: the reactions of members that are already
    settled run in member order. *)
Definition Promise_all_init (members : list pstate) : pstate :=
  match first_rejected members with
  | Some e => Rejected e
  | None =>
      match fulfilled_values members with
      | Some vs => Fulfilled (VArray vs)
      | None => Pending
      end
  end.

(** [Promise.all] when one member settles with [s]; [members] are the
    member states after that settlement.  A settled aggregate ignores it. *)
Definition Promise_all_react (agg : pstate) (s : pstate) (members : list pstate) : pstate :=
  match agg with
  | Pending =>
      match s with
      | Rejected e => Rejected e
      | Fulfilled _ =>
          match fulfilled_values members with
          | Some vs => Fulfilled (VArray vs)
          | None => Pending
          end
      | Pending => Pending
      end
  | _ => agg
  end.

End JS.
Export JS.

(** ** The transport's request object *)

Module XHR.

(** The fields of an [XMLHttpRequest] the loader reads or writes.  [url] is
    the second argument of [open]; [sent] records that the three listeners
    were attached and [send] was called (the executor does both or
    neither). *)
Record request : Type := mk {
  url : value;
  index : value;
  responseType : value;
  sent : bool;
  status : N;
  statusText : string;
  response : value
}.

(** [new XMLHttpRequest()] followed by [open('GET', url, true)]. *)
Definition open (url : value) : request :=
  {| url := url; index := VUndefined; responseType := VStr ""; sent := false;
     status := 0; statusText := ""; response := VNull |}.

Definition set_index (i : value) (r : request) : request :=
  {| url := url r; index := i; responseType := responseType r; sent := sent r;
     status := status r; statusText := statusText r; response := response r |}.

Definition set_responseType (t : value) (r : request) : request :=
  {| url := url r; index := index r; responseType := t; sent := sent r;
     status := status r; statusText := statusText r; response := response r |}.

(** [request.response = v].  [response] is a read-only attribute, an
    accessor without setter, and the class is strict code: the write
    throws a TypeError and leaves the request as it is. *)
Definition set_response (v : value) (r : request) : completion request :=
  Throw (TypeError "Cannot set property response of #<XMLHttpRequest> which has only a getter").

(** [send()], after the listeners were attached. *)
Definition send (r : request) : request :=
  {| url := url r; index := index r; responseType := responseType r; sent := true;
     status := status r; statusText := statusText r; response := response r |}.

(** The transport completes the exchange: it fills in the result fields
    before it fires [load]. *)
Definition complete (st : N) (text : string) (payload : value) (r : request) : request :=
  {| url := url r; index := index r; responseType := responseType r; sent := sent r;
     status := st; statusText := text; response := payload |}.

End XHR.

(** ** The loader and its host *)

(** The two fields the constructor initialises. *)
Record Loader : Type := mkLoader {
  responseType : value;
  progressCb : value
}.

(** A request together with the promise [fileLoadingRequest] returned for it. *)
Record fetch : Type := mkFetch {
  request : XHR.request;
  promise : pstate
}.

(** A promise built by [Promise.all] over the promises of [members]. *)
Record aggregate : Type := mkAggregate {
  members : list nat;
  outcome : pstate
}.

Record world : Type := mkWorld {
  this : Loader;
  fetches : list fetch;
  alls : list aggregate;
  calls : list (nat * value);
  uncaught : list value
}.

(** What [load] hands back: the promise of one fetch, or an aggregate. *)
Inductive promise_ref : Type :=
| PFetch (rid : nat)
| PAll (aid : nat).

(** What running a listener does to the rest of the world. *)
Inductive effect : Type :=
| Resolve (v : value)
| Reject (e : value)
| Escapes (e : value)
| Calls (f : nat) (arg : value)
| Nothing.

(** What the user and the transport do to a loader. *)
Inductive action : Type :=
| Load (fileURLs : value)
| OnProgress (callback : value)
| SetProgressCallback (callback : value)
| XhrLoad (rid : nat) (status : N) (statusText : string) (response : value)
| XhrProgress (rid : nat) (loaded total : N)
| XhrError (rid : nat).

Definition promise_of (fs : list fetch) (rid : nat) : pstate :=
  match fs !! rid with
  | Some f => promise f
  | None => Pending
  end.

Definition member_states (fs : list fetch) (ms : list nat) : list pstate :=
  map (promise_of fs) ms.

Definition is_member (rid : nat) (a : aggregate) : bool :=
  existsb (Nat.eqb rid) (members a).

Definition react (fs : list fetch) (rid : nat) (s : pstate) (a : aggregate) : aggregate :=
  if is_member rid a
  then {| members := members a;
          outcome := Promise_all_react (outcome a) s (member_states fs (members a)) |}
  else a.

(** [resolve] and [reject] of the promise of fetch [rid]: a settled promise
    ignores them; otherwise the promise takes state [s] and the aggregates
    it is a member of react. *)
Definition settle (rid : nat) (s : pstate) (w : world) : world :=
  match fetches w !! rid with
  | Some f =>
      if is_pending (promise f)
      then
        let fs := <[rid := {| request := request f; promise := s |}]> (fetches w) in
        {| this := this w; fetches := fs; alls := map (react fs rid s) (alls w);
           calls := calls w; uncaught := uncaught w |}
      else w
  | None => w
  end.

Definition set_request (rid : nat) (r : XHR.request) (w : world) : world :=
  match fetches w !! rid with
  | Some f =>
      {| this := this w;
         fetches := <[rid := {| request := r; promise := promise f |}]> (fetches w);
         alls := alls w; calls := calls w; uncaught := uncaught w |}
  | None => w
  end.

Definition apply_effect (rid : nat) (e : effect) (w : world) : world :=
  match e with
  | Resolve v => settle rid (Fulfilled v) w
  | Reject err => settle rid (Rejected err) w
  | Escapes err =>
      {| this := this w; fetches := fetches w; alls := alls w;
         calls := calls w; uncaught := uncaught w ++ [err] |}
  | Calls f arg =>
      {| this := this w; fetches := fetches w; alls := alls w;
         calls := calls w ++ [(f, arg)]; uncaught := uncaught w |}
  | Nothing => w
  end.

Definition push_fetch (f : fetch) (w : world) : nat * world :=
  (length (fetches w),
   {| this := this w; fetches := fetches w ++ [f]; alls := alls w;
      calls := calls w; uncaught := uncaught w |}).

(** [Promise.all(promises)]. *)
Definition Promise_all (promises : list nat) (w : world) : nat * world :=
  (length (alls w),
   {| this := this w; fetches := fetches w;
      alls := alls w ++ [{| members := promises;
                            outcome := Promise_all_init (member_states (fetches w) promises) |}];
      calls := calls w; uncaught := uncaught w |}).

(** *** The class *)

(** [constructor(responseType = undefined)]. *)
Definition constructor (responseType : value) : Loader :=
  {| responseType := responseType; progressCb := VUndefined |}.

(** The world of a freshly constructed loader. *)
Definition new_Loader (responseType : value) : world :=
  {| this := constructor responseType; fetches := []; alls := []; calls := []; uncaught := [] |}.

(** [get progressCallback()]. *)
Definition progressCallback (L : Loader) : value := progressCb L.

Definition set_progressCb (callback : value) (L : Loader) : Loader :=
  {| responseType := responseType L; progressCb := callback |}.

(** [onProgress(callback)]. *)
Definition onProgress (callback : value) (L : Loader) : Loader :=
  set_progressCb callback L.

(** [set progressCallback(callback)]. *)
Definition set_progressCallback (callback : value) (L : Loader) : Loader :=
  set_progressCb callback L.

Definition with_this (L : Loader) (w : world) : world :=
  {| this := L; fetches := fetches w; alls := alls w; calls := calls w; uncaught := uncaught w |}.

Definition suffix : string := ".json".

(** [this.length] inside [fileLoadingRequest]: the arrow functions keep the
    method's receiver, a [Loader], which has no such property. *)
Definition this_length (L : Loader) : value := VUndefined.

(** [this.length - suffix.length]. *)
Definition position (L : Loader) : number :=
  match to_number (this_length L) with
  | Some n => JS.sub n (of_nat (String.length suffix))
  | None => NaN
  end.

(** Lines 77-86: the content type the request is given, or the exception
    the test on the URL raises. *)
Definition choose_responseType (L : Loader) (url : value) : completion value :=
  if truthy (responseType L)
  then Normal (responseType L)
  else
    match call_indexOf url suffix (position L) with
    | Throw e => Throw e
    | Normal k => if (k =? -1)%Z then Normal (VStr "arraybuffer") else Normal (VStr "json")
    end.

(** The promise executor of [fileLoadingRequest], up to [send]: an
    exception leaves the request opened, without listeners and unsent. *)
Definition executor (L : Loader) (url index : value) : completion XHR.request :=
  let request := XHR.set_index index (XHR.open url) in
  match choose_responseType L url with
  | Throw e => Throw e
  | Normal t => Normal (XHR.send (XHR.set_responseType t request))
  end.

(** [new Promise(executor)]: the request and the promise that come out of
    the executor; an exception in the executor rejects the promise. *)
Definition new_Promise (L : Loader) (url index : value) : fetch :=
  match executor L url index with
  | Normal request => {| request := request; promise := Pending |}
  | Throw e => {| request := XHR.set_index index (XHR.open url); promise := Rejected e |}
  end.

(** [fileLoadingRequest(url, index)]. *)
Definition fileLoadingRequest (url index : value) (w : world) : nat * world :=
  push_fetch (new_Promise (this w) url index) w.

(** [loadOne(fileURL)]. *)
Definition loadOne (fileURL : value) (w : world) : nat * world :=
  fileLoadingRequest fileURL VUndefined w.

(** [fileURLs.map((fileURL, index) => this.fileLoadingRequest(fileURL, index))],
    from position [index] on. *)
Fixpoint map_requests (fileURLs : list value) (index : nat) (w : world) : list nat * world :=
  match fileURLs with
  | [] => ([], w)
  | fileURL :: rest =>
      let '(p, w1) := fileLoadingRequest fileURL (VNum (of_nat index)) w in
      let '(ps, w2) := map_requests rest (S index) w1 in
      (p :: ps, w2)
  end.

(** [loadAll(fileURLs)]. *)
Definition loadAll (fileURLs : list value) (w : world) : nat * world :=
  let '(promises, w1) := map_requests fileURLs 0 w in
  Promise_all promises w1.

Definition missing_argument : string :=
  "Invalid fileURLs parameter: load method needs at least a url to load".

(** [load(fileURLs)]. *)
Definition load (fileURLs : value) (w : world) : completion promise_ref * world :=
  match fileURLs with
  | VUndefined => (Throw (Error missing_argument), w)
  | VArray urls => let '(a, w1) := loadAll urls w in (Normal (PAll a), w1)
  | _ => let '(p, w1) := loadOne fileURLs w in (Normal (PFetch p), w1)
  end.

(** *** The listeners *)

Definition accepted (status : N) : bool :=
  (status =? 200)%N || (status =? 304)%N || (status =? 0)%N.

(** The progress listener (an arrow function: [this] is the loader, and
    [index] the argument [fileLoadingRequest] was called with). *)
Definition progress_listener (L : Loader) (index : value) (loaded total : N) : effect :=
  if truthy (progressCallback L)
  then
    let event :=
      [("value", VNum (JS.div loaded total));
       ("loaded", VNum (of_N loaded));
       ("total", VNum (of_N total))] in
    let event :=
      match index with
      | VUndefined => event
      | _ => event ++ [("index", index)]
      end in
    match progressCallback L with
    | VFunction f => Calls f (VObject event)
    | _ => Escapes (TypeError "this.progressCallback is not a function")
    end
  else Nothing.

(** The error listener. *)
Definition error_listener : effect := Reject (Error "Network Error").

Section Host.

(** [JSON.parse], the host's parser: the parsed value, or the exception
    it throws. *)
Variable JSON_parse : string -> completion value.

(** The load listener (a [function]: [this] is the request).  It returns
    the request as it leaves it.  At line 94 [JSON.parse] runs first and
    may throw; then the write to [request.response] is attempted, and
    [resolve] comes after it. *)
Definition load_listener (request : XHR.request) : XHR.request * effect :=
  if accepted (XHR.status request)
  then
    if strict_eq_string (XHR.responseType request) "json"
       && (typeof (XHR.response request) =? "string")
    then
      match JSON_parse (string_of (XHR.response request)) with
      | Throw e => (request, Escapes e)
      | Normal parsed =>
          match XHR.set_response parsed request with
          | Throw e => (request, Escapes e)
          | Normal request' => (request', Resolve (XHR.response request'))
          end
      end
    else (request, Resolve (XHR.response request))
  else (request, Reject (Error (XHR.statusText request))).

(** The transport fires [load] on request [rid]. *)
Definition fire_load (rid : nat) (status : N) (statusText : string) (response : value)
    (w : world) : world :=
  match fetches w !! rid with
  | Some f =>
      if XHR.sent (request f)
      then
        let '(r, e) := load_listener (XHR.complete status statusText response (request f)) in
        apply_effect rid e (set_request rid r w)
      else w
  | None => w
  end.

Definition fire_progress (rid : nat) (loaded total : N) (w : world) : world :=
  match fetches w !! rid with
  | Some f =>
      if XHR.sent (request f)
      then apply_effect rid (progress_listener (this w) (XHR.index (request f)) loaded total) w
      else w
  | None => w
  end.

Definition fire_error (rid : nat) (w : world) : world :=
  match fetches w !! rid with
  | Some f => if XHR.sent (request f) then apply_effect rid error_listener w else w
  | None => w
  end.

Definition step (w : world) (a : action) : world :=
  match a with
  | Load fileURLs => snd (load fileURLs w)
  | OnProgress callback => with_this (onProgress callback (this w)) w
  | SetProgressCallback callback => with_this (set_progressCallback callback (this w)) w
  | XhrLoad rid status statusText response => fire_load rid status statusText response w
  | XhrProgress rid loaded total => fire_progress rid loaded total w
  | XhrError rid => fire_error rid w
  end.

Definition run (w : world) (trace : list action) : world :=
  fold_left step trace w.

End Host.

(** ** A host parser

    The properties below hold for every [JSON_parse].  To run the model on
    concrete traces, this is a parser of JSON texts (RFC 8259) producing
    the values of the model: numbers exactly, strings as byte strings (a
    [\u] escape is stored as the UTF-8 bytes of its code unit), objects
    with the last value of a repeated key. *)

Module JSON.

Local Open Scope char_scope.

Definition quote : ascii := "034".
Definition backslash : ascii := "092".

Definition is_ws (c : ascii) : bool :=
  match c with
  | " " | "009" | "010" | "013" => true
  | _ => false
  end.

Fixpoint skip_ws (l : list ascii) : list ascii :=
  match l with
  | c :: rest => if is_ws c then skip_ws rest else l
  | [] => []
  end.

Definition digit (c : ascii) : option Z :=
  let n := Z.of_N (N_of_ascii c) in
  if ((48 <=? n) && (n <=? 57))%Z then Some (n - 48)%Z else None.

Definition hex (c : ascii) : option N :=
  let n := N_of_ascii c in
  if ((48 <=? n) && (n <=? 57))%N then Some (n - 48)%N
  else if ((65 <=? n) && (n <=? 70))%N then Some (n - 55)%N
  else if ((97 <=? n) && (n <=? 102))%N then Some (n - 87)%N
  else None.

(** The longest run of digits at the head of [l]: its value on top of
    [acc], its length on top of [count], and what follows it. *)
Fixpoint digits (l : list ascii) (acc : Z) (count : nat) : Z * nat * list ascii :=
  match l with
  | c :: rest =>
      match digit c with
      | Some d => digits rest (10 * acc + d)%Z (S count)
      | None => (acc, count, l)
      end
  | [] => (acc, count, [])
  end.

Definition int_part (l : list ascii) : option (Z * list ascii) :=
  match l with
  | "0" :: rest => Some (0%Z, rest)
  | _ =>
      match digits l 0 0 with
      | (_, O, _) => None
      | (n, _, rest) => Some (n, rest)
      end
  end.

(** The fraction [.ddd] after an integer part [n]: numerator and power of
    ten of the denominator. *)
Definition frac_part (n : Z) (l : list ascii) : option (Z * nat * list ascii) :=
  match l with
  | "." :: rest =>
      match digits rest n 0 with
      | (_, O, _) => None
      | r => Some r
      end
  | _ => Some (n, O, l)
  end.

Definition exp_part (l : list ascii) : option (Z * list ascii) :=
  let unsigned (neg : bool) (l : list ascii) :=
    match digits l 0 0 with
    | (_, O, _) => None
    | (e, _, rest) => Some ((if neg then - e else e)%Z, rest)
    end in
  match l with
  | "e" :: "-" :: rest | "E" :: "-" :: rest => unsigned true rest
  | "e" :: "+" :: rest | "E" :: "+" :: rest => unsigned false rest
  | "e" :: rest | "E" :: rest => unsigned false rest
  | _ => Some (0%Z, l)
  end.

Definition scale (num : Z) (k : nat) (e : Z) : Q :=
  let den := Z.pow 10 (Z.of_nat k) in
  Qred (if (0 <=? e)%Z
        then Qmake (num * Z.pow 10 e) (Z.to_pos den)
        else Qmake num (Z.to_pos (den * Z.pow 10 (- e)))).

Definition unsigned_number (l : list ascii) : option (Q * list ascii) :=
  match int_part l with
  | Some (n, l1) =>
      match frac_part n l1 with
      | Some (num, k, l2) =>
          match exp_part l2 with
          | Some (e, l3) => Some (scale num k e, l3)
          | None => None
          end
      | None => None
      end
  | None => None
  end.

Definition number_token (l : list ascii) : option (Q * list ascii) :=
  match l with
  | "-" :: rest =>
      match unsigned_number rest with
      | Some (q, l') => Some (Qopp q, l')
      | None => None
      end
  | _ => unsigned_number l
  end.

(** The UTF-8 bytes of a 16-bit code unit. *)
Definition utf8 (u : N) : list ascii :=
  (if u <? 128 then [ascii_of_N u]
   else if u <? 2048 then [ascii_of_N (192 + u / 64); ascii_of_N (128 + u mod 64)]
   else [ascii_of_N (224 + u / 4096); ascii_of_N (128 + (u / 64) mod 64);
         ascii_of_N (128 + u mod 64)])%N.

Definition code_unit (a b c d : ascii) : option N :=
  match hex a, hex b, hex c, hex d with
  | Some x, Some y, Some z, Some t => Some (((x * 16 + y) * 16 + z) * 16 + t)%N
  | _, _, _, _ => None
  end.

(** The characters of a string token, after its opening quote. *)
Fixpoint string_chars (l : list ascii) : option (list ascii * list ascii) :=
  let cons (cs : list ascii) (r : option (list ascii * list ascii)) :=
    match r with
    | Some (s, rest) => Some (cs ++ s, rest)
    | None => None
    end in
  match l with
  | [] => None
  | "034" :: rest => Some ([], rest)
  | "092" :: "u" :: a :: b :: c :: d :: rest =>
      match code_unit a b c d with
      | Some u => cons (utf8 u) (string_chars rest)
      | None => None
      end
  | "092" :: e :: rest =>
      match e with
      | "034" | "092" | "/" => cons [e] (string_chars rest)
      | "b" => cons ["008"] (string_chars rest)
      | "f" => cons ["012"] (string_chars rest)
      | "n" => cons ["010"] (string_chars rest)
      | "r" => cons ["013"] (string_chars rest)
      | "t" => cons ["009"] (string_chars rest)
      | _ => None
      end
  | "092" :: [] => None
  | c :: rest =>
      if (N_of_ascii c <? 32)%N then None else cons [c] (string_chars rest)
  end.

Definition string_token (l : list ascii) : option (string * list ascii) :=
  match string_chars l with
  | Some (cs, rest) => Some (string_of_list_ascii cs, rest)
  | None => None
  end.

(** [props] with [key] set to [v]: a repeated key keeps its place and
    takes the later value. *)
Fixpoint set_prop (key : string) (v : value) (props : list (string * value))
  : list (string * value) :=
  match props with
  | [] => [(key, v)]
  | (k, old) :: rest =>
      if (k =? key)%string then (k, v) :: rest else (k, old) :: set_prop key v rest
  end.

(** A value at the head of [l] (after white space), the elements of an
    array after its first [[] or a [,], the members of an object after its
    first [{] or a [,]. *)
Fixpoint parse_value (fuel : nat) (l : list ascii) : option (value * list ascii) :=
  match fuel with
  | O => None
  | S fuel =>
      match skip_ws l with
      | "n" :: "u" :: "l" :: "l" :: rest => Some (VNull, rest)
      | "t" :: "r" :: "u" :: "e" :: rest => Some (VBool true, rest)
      | "f" :: "a" :: "l" :: "s" :: "e" :: rest => Some (VBool false, rest)
      | "034" :: rest =>
          match string_token rest with
          | Some (s, rest') => Some (VStr s, rest')
          | None => None
          end
      | "[" :: rest =>
          match skip_ws rest with
          | "]" :: rest' => Some (VArray [], rest')
          | _ =>
              match parse_elements fuel rest with
              | Some (vs, rest') => Some (VArray vs, rest')
              | None => None
              end
          end
      | "{" :: rest =>
          match skip_ws rest with
          | "}" :: rest' => Some (VObject [], rest')
          | _ =>
              match parse_members fuel rest [] with
              | Some (props, rest') => Some (VObject props, rest')
              | None => None
              end
          end
      | l' =>
          match number_token l' with
          | Some (q, rest) => Some (VNum (Fin q), rest)
          | None => None
          end
      end
  end
with parse_elements (fuel : nat) (l : list ascii) : option (list value * list ascii) :=
  match fuel with
  | O => None
  | S fuel =>
      match parse_value fuel l with
      | Some (v, rest) =>
          match skip_ws rest with
          | "," :: rest' =>
              match parse_elements fuel rest' with
              | Some (vs, rest'') => Some (v :: vs, rest'')
              | None => None
              end
          | "]" :: rest' => Some ([v], rest')
          | _ => None
          end
      | None => None
      end
  end
with parse_members (fuel : nat) (l : list ascii) (acc : list (string * value))
  : option (list (string * value) * list ascii) :=
  match fuel with
  | O => None
  | S fuel =>
      match skip_ws l with
      | "034" :: rest =>
          match string_token rest with
          | Some (key, rest1) =>
              match skip_ws rest1 with
              | ":" :: rest2 =>
                  match parse_value fuel rest2 with
                  | Some (v, rest3) =>
                      let acc := set_prop key v acc in
                      match skip_ws rest3 with
                      | "," :: rest4 => parse_members fuel rest4 acc
                      | "}" :: rest4 => Some (acc, rest4)
                      | _ => None
                      end
                  | None => None
                  end
              | _ => None
              end
          | None => None
          end
      | _ => None
      end
  end.

(** [JSON.parse(text)]: one value and nothing else. *)
Definition parse (text : string) : completion value :=
  let l := list_ascii_of_string text in
  match parse_value (2 * length l + 2) l with
  | Some (v, rest) =>
      match skip_ws rest with
      | [] => Normal v
      | _ :: _ => Throw (SyntaxError "Unexpected token in JSON")
      end
  | None => Throw (SyntaxError "Unexpected token in JSON")
  end.

End JSON.

(** ** Vocabulary of the properties *)

(** The callback most recently registered along a trace, by either path;
    [slot] when the trace registers none. *)
Definition last_registered (trace : list action) (slot : value) : value :=
  fold_left
    (fun cb a =>
       match a with
       | OnProgress callback | SetProgressCallback callback => callback
       | _ => cb
       end)
    trace slot.

(** The URL ends in [suffix]. *)
Definition ends_with (url suffix : string) : bool :=
  Nat.leb (String.length suffix) (String.length url)
  && String.eqb
       (substring (String.length url - String.length suffix) (String.length suffix) url)
       suffix.

(** Reading a property of a plain object. *)
Fixpoint assoc (key : string) (props : list (string * value)) : option value :=
  match props with
  | [] => None
  | (k, v) :: rest => if k =? key then Some v else assoc key rest
  end.

Definition get_prop (key : string) (v : value) : option value :=
  match v with
  | VObject props => assoc key props
  | _ => None
  end.

(** A number between 0 and 1 inclusive. *)
Definition between_0_and_1 (n : number) : Prop :=
  match n with
  | Fin q => (0 <= q)%Q /\ (q <= 1)%Q
  | _ => False
  end.

(** The three fields every progress record has. *)
Definition progress_fields (loaded total : N) : list (string * value) :=
  [("value", VNum (JS.div loaded total));
   ("loaded", VNum (of_N loaded));
   ("total", VNum (of_N total))].

(** The fetches a call [load(fileURLs)] creates, in order of creation. *)
Definition dispatched (L : Loader) (fileURLs : value) : list fetch :=
  match fileURLs with
  | VUndefined => []
  | VArray urls => imap (fun i url => new_Promise L url (VNum (of_nat i))) urls
  | _ => [new_Promise L fileURLs VUndefined]
  end.

(** What a listener's effect makes of the promise of its request. *)
Definition after_effect (e : effect) (p : pstate) : pstate :=
  match p, e with
  | Pending, Resolve v => Fulfilled v
  | Pending, Reject err => Rejected err
  | _, _ => p
  end.

(** The record a progress listener builds for a request tagged [index]. *)
Definition progress_record (index : value) (loaded total : N) : value :=
  VObject (progress_fields loaded total
           ++ match index with
              | VUndefined => []
              | _ => [("index", index)]
              end).

(** What a request is from its dispatch on: its URL, index and content
    type, and whether it was sent. *)
Definition tag (f : fetch) : value * value * value * bool :=
  (XHR.url (request f), XHR.index (request f), XHR.responseType (request f),
   XHR.sent (request f)).

(** The calls of callback [cb] one action causes, given the tags of the
    requests: one per progress event of a request that was sent. *)
Definition delivered (tags : list (value * value * value * bool)) (cb : nat) (a : action)
  : list (nat * value) :=
  match a with
  | XhrProgress rid loaded total =>
      match tags !! rid with
      | Some (_, index, _, true) => [(cb, progress_record index loaded total)]
      | _ => []
      end
  | _ => []
  end.

(** The promises of the fetches, by request number. *)
Definition promises (w : world) : list pstate := map promise (fetches w).

Definition states_of (ps : list pstate) (ms : list nat) : list pstate :=
  map (fun m => default Pending (ps !! m)) ms.

(** [react] on the promises alone. *)
Definition react_on (ps : list pstate) (rid : nat) (s : pstate) (a : aggregate) : aggregate :=
  if is_member rid a
  then {| members := members a;
          outcome := Promise_all_react (outcome a) s (states_of ps (members a)) |}
  else a.

(** What an aggregate is to its members: fulfilled with the array of
    their values when they are all fulfilled, rejected with the reason of
    a rejected member, pending while none is rejected and one is pending. *)
Definition all_or_nothing (ms : list pstate) (agg : pstate) : Prop :=
  match agg with
  | Fulfilled v => exists vs, v = VArray vs /\ ms = map Fulfilled vs
  | Rejected e => In (Rejected e) ms
  | Pending => (forall e, ~ In (Rejected e) ms) /\ In Pending ms
  end.

Definition aggregate_ok (ps : list pstate) (a : aggregate) : Prop :=
  Forall (fun m => m < length ps) (members a)
  /\ all_or_nothing (states_of ps (members a)) (outcome a).

(** Every aggregate of the world is what [Promise.all] makes it. *)
Definition consistent (w : world) : Prop :=
  Forall (aggregate_ok (promises w)) (alls w).

(** The aggregate a call [load(fileURLs)] adds to the world, if any. *)
Definition aggregated (w : world) (fileURLs : value) : list aggregate :=
  match fileURLs with
  | VArray urls =>
      let rids := seq (length (fetches w)) (length urls) in
      [{| members := rids;
          outcome :=
            Promise_all_init
              (member_states (fetches w ++ dispatched (this w) fileURLs) rids) |}]
  | _ => []
  end.

(** The two ways an action changes the promises and the aggregates: it adds
    new ones at the end, or it settles one pending promise, to which the
    aggregates react. *)
Inductive moves (ps : list pstate) (als : list aggregate)
  : list pstate -> list aggregate -> Prop :=
| moves_dispatch new newa :
    Forall (aggregate_ok (ps ++ new)) newa ->
    moves ps als (ps ++ new) (als ++ newa)
| moves_settle rid s :
    ps !! rid = Some Pending ->
    s <> Pending ->
    moves ps als (<[rid := s]> ps) (map (react_on (<[rid := s]> ps) rid s) als).

(** The JSON text of an object with the one member [x], equal to 1. *)
Definition x_is_1 : string :=
  "{" ++ String JSON.quote ("x" ++ String JSON.quote ":1}").

(** A loader without hint after [load('sound.wav')]. *)
Definition one_fetch : world :=
  snd (load (VStr "sound.wav") (new_Loader VUndefined)).

(** A loader without hint on which callback 1 was registered before
    [load('sound.wav')], and that received one progress event since. *)
Definition one_fetch_in_progress : world :=
  run JSON.parse (new_Loader VUndefined)
    [OnProgress (VFunction 1); Load (VStr "sound.wav"); XhrProgress 0 256 1024].

(** A loader without hint after [load(['a.json', 'b.bin'])]. *)
Definition two_fetches : world :=
  snd (load (VArray [VStr "a.json"; VStr "b.bin"]) (new_Loader VUndefined)).

(** Registering [callback] through the method or through the property. *)
Definition register (method : bool) (callback : value) : action :=
  if method then OnProgress callback else SetProgressCallback callback.

Definition is_transport (a : action) : bool :=
  match a with
  | XhrLoad _ _ _ _ | XhrProgress _ _ _ | XhrError _ => true
  | _ => false
  end.

(** The content types of the transport that are a hint (the empty string
    is one of its content types and no hint). *)
Definition content_types : list string :=
  ["arraybuffer"; "blob"; "document"; "json"; "text"].

(** A loader constructed with ['text'] after
    [load(['presets/room.json', null])]. *)
Definition text_loader : world :=
  snd (load (VArray [VStr "presets/room.json"; VNull]) (new_Loader (VStr "text"))).

(** The actions that write the progress-callback slot. *)
Definition is_registration (a : action) : bool :=
  match a with
  | OnProgress _ | SetProgressCallback _ => true
  | _ => false
  end.

(** The request whose promise an action can settle: the one a completion
    or a failure of the transport is for. *)
Definition target (a : action) : option nat :=
  match a with
  | XhrLoad rid _ _ _ | XhrError rid => Some rid
  | _ => None
  end.

(** How many requests and how many aggregates a call of [load] is expected
    to create. *)
Definition created (a : action) : nat * nat :=
  match a with
  | Load VUndefined => (0, 0)
  | Load (VArray urls) => (length urls, 1)
  | Load _ => (1, 0)
  | _ => (0, 0)
  end.

(** A loader without hint after
    [load(['a.wav', undefined, 'c.wav'])]. *)
Definition hole_in_batch : world :=
  snd (load (VArray [VStr "a.wav"; VUndefined; VStr "c.wav"]) (new_Loader VUndefined)).

(** ** Properties *)

(** *** What a dispatch adds to the world *)

Lemma fileLoadingRequest_eq url index w :
  fileLoadingRequest url index w =
  (length (fetches w),
   {| this := this w; fetches := fetches w ++ [new_Promise (this w) url index];
      alls := alls w; calls := calls w; uncaught := uncaught w |}).
Proof. reflexivity. Qed.

Lemma new_Promise_url L url index : XHR.url (request (new_Promise L url index)) = url.
Proof. unfold new_Promise, executor. destruct (choose_responseType L url); reflexivity. Qed.

Lemma new_Promise_index L url index : XHR.index (request (new_Promise L url index)) = index.
Proof. unfold new_Promise, executor. destruct (choose_responseType L url); reflexivity. Qed.

Lemma map_requests_spec fileURLs : forall index w,
  map_requests fileURLs index w =
  (seq (length (fetches w)) (length fileURLs),
   {| this := this w;
      fetches := fetches w
                 ++ imap (fun i u => new_Promise (this w) u (VNum (of_nat (index + i)))) fileURLs;
      alls := alls w; calls := calls w; uncaught := uncaught w |}).
Proof.
  induction fileURLs as [|u rest IH]; intros index w.
  - simpl. rewrite app_nil_r. destruct w; reflexivity.
  - cbn [map_requests]. rewrite fileLoadingRequest_eq, IH. cbn [this fetches alls calls uncaught].
    rewrite length_app, <- app_assoc. cbn [length imap app seq].
    rewrite Nat.add_0_r, Nat.add_1_r. f_equal. f_equal. f_equal. f_equal.
    apply imap_ext. intros i x _. cbn. do 3 f_equal. lia.
Qed.

(** *** The progress-callback slot *)

Section Slot.

Variable JSON_parse : string -> completion value.

Lemma settle_this rid s w : this (settle rid s w) = this w.
Proof. unfold settle. repeat case_match; reflexivity. Qed.

Lemma apply_effect_this rid e w : this (apply_effect rid e w) = this w.
Proof. destruct e; cbn; auto using settle_this. Qed.

Lemma set_request_this rid r w : this (set_request rid r w) = this w.
Proof. unfold set_request. case_match; reflexivity. Qed.

Lemma load_this v w : this (snd (load v w)) = this w.
Proof.
  destruct v; try reflexivity.
  cbn [load]. unfold loadAll. rewrite map_requests_spec. reflexivity.
Qed.

Lemma step_slot w a :
  progressCallback (this (step JSON_parse w a))
  = last_registered [a] (progressCallback (this w)).
Proof.
  destruct a; cbn [step last_registered fold_left]; try reflexivity.
  - now rewrite load_this.
  - unfold fire_load. repeat case_match; try reflexivity.
    now rewrite apply_effect_this, set_request_this.
  - unfold fire_progress. repeat case_match; try reflexivity.
    now rewrite apply_effect_this.
  - unfold fire_error. repeat case_match; try reflexivity.
    now rewrite apply_effect_this.
Qed.

(** C7. The loader has one progress-callback slot.  [onProgress] and the
    [progressCallback] setter perform the same write; reading
    [progressCallback] returns what was written; and after any sequence of
    loads, registrations and transport events the property reads as the
    callback of the most recent registration, whichever path made it (the
    earlier ones are gone). *)
Theorem progress_slot_last_registration_wins :
  (forall callback L, onProgress callback L = set_progressCallback callback L)
  /\ (forall callback L, progressCallback (onProgress callback L) = callback)
  /\ (forall callback L, progressCallback (set_progressCallback callback L) = callback)
  /\ (forall w trace,
        progressCallback (this (run JSON_parse w trace))
        = last_registered trace (progressCallback (this w))).
Proof.
  split; [reflexivity|]. split; [reflexivity|]. split; [reflexivity|].
  intros w trace. revert w.
  induction trace as [|a trace IH]; intros w; [reflexivity|].
  cbn [run fold_left]. fold (run JSON_parse (step JSON_parse w a) trace).
  rewrite IH, step_slot. reflexivity.
Qed.

End Slot.

(** *** The argument of [load] *)

(** C4. [load(undefined)] throws: the call completes with the exception
    and hands back no promise, and the world is the one before the call,
    in which no request was created, opened or sent.  As an action of a
    trace it changes nothing. *)
Theorem load_undefined_throws (JSON_parse : string -> completion value) w :
  fst (load VUndefined w) = Throw (Error missing_argument)
  /\ (forall p, fst (load VUndefined w) <> Normal p)
  /\ snd (load VUndefined w) = w
  /\ fetches (snd (load VUndefined w)) = fetches w
  /\ step JSON_parse w (Load VUndefined) = w.
Proof.
  cbn [load fst snd step]. repeat split. discriminate.
Qed.

(** C10. Every argument other than [undefined] that is not an array is
    handed to [loadOne]: [load] returns a promise (it does not throw), the
    one of a single request opened on the argument as URL and carrying no
    index; no aggregate is built.  So [load] throws exactly on [undefined]. *)
Theorem load_non_array_is_single_fetch fileURLs w
  (Hdefined : fileURLs <> VUndefined)
  (Hnot_array : forall urls, fileURLs <> VArray urls) :
  load fileURLs w = (Normal (PFetch (length (fetches w))), snd (loadOne fileURLs w))
  /\ (exists f,
        fetches (snd (load fileURLs w)) = fetches w ++ [f]
        /\ XHR.url (request f) = fileURLs
        /\ XHR.index (request f) = VUndefined)
  /\ alls (snd (load fileURLs w)) = alls w
  /\ (forall v, (exists e, fst (load v w) = Throw e) <-> v = VUndefined).
Proof.
  split; [|split; [|split]].
  - destruct fileURLs; try reflexivity; [congruence | exfalso; eapply Hnot_array; eauto].
  - exists (new_Promise (this w) fileURLs VUndefined).
    split; [|split; [apply new_Promise_url | apply new_Promise_index]].
    destruct fileURLs; try reflexivity; [congruence | exfalso; eapply Hnot_array; eauto].
  - destruct fileURLs; try reflexivity. exfalso; eapply Hnot_array; eauto.
  - intros v; split.
    + intros [e He]. destruct v; try discriminate; [reflexivity|].
      cbn [load] in He. destruct (loadAll elems w). discriminate.
    + intros ->. eexists; reflexivity.
Qed.

Lemma load_non_array_is_single_fetch_witness :
  load VNull (new_Loader VUndefined)
  = (Normal (PFetch 0), snd (loadOne VNull (new_Loader VUndefined)))
  /\ load (VStr "") (new_Loader VUndefined)
     = (Normal (PFetch 0), snd (loadOne (VStr "") (new_Loader VUndefined)))
  /\ load (VNum (of_nat 5)) (new_Loader VUndefined)
     = (Normal (PFetch 0), snd (loadOne (VNum (of_nat 5)) (new_Loader VUndefined))).
Proof.
  split; [|split].
  - refine (proj1 (load_non_array_is_single_fetch VNull (new_Loader VUndefined) _ _));
      discriminate.
  - refine (proj1 (load_non_array_is_single_fetch (VStr "") (new_Loader VUndefined) _ _));
      discriminate.
  - refine (proj1 (load_non_array_is_single_fetch (VNum (of_nat 5)) (new_Loader VUndefined) _ _));
      discriminate.
Defined.

(** *** The content type of a request *)

Lemma position_is_NaN L : position L = NaN.
Proof. reflexivity. Qed.

(** Without a hint, the type of a string URL is decided by whether
    [".json"] occurs in it, searching from its start. *)
Lemma choose_responseType_no_hint L (url : string) :
  truthy (responseType L) = false ->
  choose_responseType L (VStr url)
  = Normal (VStr (match String.index 0 suffix url with
                  | Some _ => "json"
                  | None => "arraybuffer"
                  end)).
Proof.
  intros Hhint. unfold choose_responseType. rewrite Hhint.
  cbn [call_indexOf]. unfold String_indexOf. rewrite position_is_NaN. cbn [clamp_position].
  destruct (String.index 0 suffix url) as [k|]; [|reflexivity].
  destruct (Z.eqb_spec (Z.of_nat k) (-1)); [lia | reflexivity].
Qed.

(** A URL that ends in [".json"] is requested as json when the loader has
    no hint. *)
Lemma ends_with_json_requests_json L (url : string) :
  truthy (responseType L) = false ->
  ends_with url suffix = true ->
  choose_responseType L (VStr url) = Normal (VStr "json").
Proof.
  intros Hhint Hends. rewrite choose_responseType_no_hint by assumption.
  destruct (String.index 0 suffix url) as [k|] eqn:Hidx; [reflexivity|].
  exfalso. unfold ends_with in Hends.
  apply andb_true_iff in Hends as [_ Hsub]. apply String.eqb_eq in Hsub.
  refine (index_correct3 0 _ suffix url Hidx _ _ Hsub); [discriminate | lia].
Qed.

(** C2, at the URL ["data/config.json?v=2"] on a loader without hint: the
    URL does not end in [".json"], and the request [load] creates for it
    is given the [json] type, not [arraybuffer].  The test at line 81
    measures the start position on [this], the loader, instead of the URL:
    the position is NaN, and [indexOf] searches the whole URL. *)
Theorem json_inside_url_requests_json :
  ends_with "data/config.json?v=2" suffix = false
  /\ position (constructor VUndefined) = NaN
  /\ load (VStr "data/config.json?v=2") (new_Loader VUndefined)
     = (Normal (PFetch 0),
        {| this := constructor VUndefined;
           fetches :=
             [{| request :=
                   {| XHR.url := VStr "data/config.json?v=2"; XHR.index := VUndefined;
                      XHR.responseType := VStr "json"; XHR.sent := true;
                      XHR.status := 0; XHR.statusText := ""; XHR.response := VNull |};
                 promise := Pending |}];
           alls := []; calls := []; uncaught := [] |}).
Proof. split; [|split]; reflexivity. Qed.

(** *** Settling a promise *)

Lemma load_fetches v w :
  fetches (snd (load v w)) = fetches w ++ dispatched (this w) v.
Proof.
  destruct v; try reflexivity.
  - cbn. now rewrite app_nil_r.
  - cbn [load]. unfold loadAll. rewrite map_requests_spec. reflexivity.
Qed.

Lemma promise_of_app_l fs new rid f :
  fs !! rid = Some f -> promise_of (fs ++ new) rid = promise_of fs rid.
Proof.
  intros Hf. unfold promise_of. rewrite lookup_app_l; [reflexivity|].
  eapply lookup_lt_Some; eauto.
Qed.

Lemma promise_of_insert fs rid f rid' :
  rid < length fs ->
  promise_of (<[rid := f]> fs) rid'
  = if decide (rid = rid') then promise f else promise_of fs rid'.
Proof.
  intros Hlt. unfold promise_of. case_decide as Heq.
  - subst. now rewrite list_lookup_insert_eq.
  - now rewrite list_lookup_insert_ne.
Qed.

Lemma settle_fetches w rid f s :
  fetches w !! rid = Some f -> promise f = Pending ->
  fetches (settle rid s w) = <[rid := {| request := request f; promise := s |}]> (fetches w).
Proof. intros Hf Hp. unfold settle. rewrite Hf, Hp. reflexivity. Qed.

Lemma settle_settled w rid f s :
  fetches w !! rid = Some f -> promise f <> Pending -> settle rid s w = w.
Proof.
  intros Hf Hp. unfold settle. rewrite Hf. destruct (promise f); [congruence | reflexivity ..].
Qed.

Lemma settle_missing w rid s : fetches w !! rid = None -> settle rid s w = w.
Proof. intros Hf. unfold settle. now rewrite Hf. Qed.

Lemma promise_of_settle_eq w rid f s :
  fetches w !! rid = Some f -> promise f = Pending ->
  promise_of (fetches (settle rid s w)) rid = s.
Proof.
  intros Hf Hp. rewrite (settle_fetches _ _ _ _ Hf Hp), promise_of_insert.
  - now rewrite decide_True.
  - eapply lookup_lt_Some; eauto.
Qed.

Lemma promise_of_settle_ne w rid rid' s :
  rid <> rid' -> promise_of (fetches (settle rid s w)) rid' = promise_of (fetches w) rid'.
Proof.
  intros Hne. destruct (fetches w !! rid) as [f|] eqn:Hf.
  - destruct (promise f) eqn:Hp.
    + rewrite (settle_fetches _ _ _ _ Hf Hp), promise_of_insert.
      * now rewrite decide_False.
      * eapply lookup_lt_Some; eauto.
    + rewrite (settle_settled _ _ _ _ Hf); [reflexivity | congruence].
    + rewrite (settle_settled _ _ _ _ Hf); [reflexivity | congruence].
  - now rewrite settle_missing.
Qed.

Lemma set_request_lookup w rid f r :
  fetches w !! rid = Some f ->
  fetches (set_request rid r w) !! rid = Some {| request := r; promise := promise f |}.
Proof.
  intros Hf. unfold set_request. rewrite Hf. cbn.
  apply list_lookup_insert_eq. eapply lookup_lt_Some; eauto.
Qed.

Lemma promise_of_set_request w rid r rid' :
  promise_of (fetches (set_request rid r w)) rid' = promise_of (fetches w) rid'.
Proof.
  unfold set_request. destruct (fetches w !! rid) as [f|] eqn:Hf; [|reflexivity].
  cbn [fetches]. rewrite promise_of_insert by (eapply lookup_lt_Some; eauto).
  case_decide; [subst|reflexivity]. unfold promise_of. now rewrite Hf.
Qed.

Lemma promise_of_apply_effect w rid f e rid' :
  fetches w !! rid = Some f ->
  promise_of (fetches (apply_effect rid e w)) rid'
  = if decide (rid = rid') then after_effect e (promise f) else promise_of (fetches w) rid'.
Proof.
  intros Hf.
  assert (Hself : promise_of (fetches w) rid = promise f)
    by (unfold promise_of; now rewrite Hf).
  case_decide as Heq.
  - subst rid'. destruct e; cbn [apply_effect fetches]; rewrite ?Hself.
    + destruct (promise f) eqn:Hp; cbn.
      * eapply promise_of_settle_eq; eauto.
      * rewrite (settle_settled _ _ _ _ Hf); congruence.
      * rewrite (settle_settled _ _ _ _ Hf); congruence.
    + destruct (promise f) eqn:Hp; cbn.
      * eapply promise_of_settle_eq; eauto.
      * rewrite (settle_settled _ _ _ _ Hf); congruence.
      * rewrite (settle_settled _ _ _ _ Hf); congruence.
    + now destruct (promise f).
    + now destruct (promise f).
    + now destruct (promise f).
  - destruct e; cbn [apply_effect fetches]; auto using promise_of_settle_ne.
Qed.

Section Settlement.

Variable JSON_parse : string -> completion value.

Lemma fire_load_promise w rid f st tx rp rid' :
  fetches w !! rid = Some f -> XHR.sent (request f) = true ->
  promise_of (fetches (fire_load JSON_parse rid st tx rp w)) rid'
  = if decide (rid = rid')
    then after_effect (snd (load_listener JSON_parse (XHR.complete st tx rp (request f))))
           (promise f)
    else promise_of (fetches w) rid'.
Proof.
  intros Hf Hsent. unfold fire_load. rewrite Hf, Hsent.
  destruct (load_listener JSON_parse (XHR.complete st tx rp (request f))) as [r e].
  rewrite (promise_of_apply_effect _ _ _ _ _ (set_request_lookup _ _ _ r Hf)).
  cbn [promise snd]. now rewrite promise_of_set_request.
Qed.

Lemma fire_error_promise w rid f rid' :
  fetches w !! rid = Some f -> XHR.sent (request f) = true ->
  promise_of (fetches (fire_error rid w)) rid'
  = if decide (rid = rid') then after_effect error_listener (promise f)
    else promise_of (fetches w) rid'.
Proof.
  intros Hf Hsent. unfold fire_error. rewrite Hf, Hsent.
  now apply promise_of_apply_effect.
Qed.

Lemma fire_progress_fetches w rid loaded total :
  fetches (fire_progress rid loaded total w) = fetches w.
Proof.
  unfold fire_progress. repeat case_match; try reflexivity.
  unfold progress_listener. repeat case_match; reflexivity.
Qed.

(** Events of the other requests, progress events, registrations and
    further loads leave a promise as it is. *)
Lemma step_other_promise w rid f a :
  fetches w !! rid = Some f ->
  (forall st tx rp, a <> XhrLoad rid st tx rp) -> a <> XhrError rid ->
  promise_of (fetches (step JSON_parse w a)) rid = promise f.
Proof.
  intros Hf Hload Herror.
  assert (Hself : promise_of (fetches w) rid = promise f)
    by (unfold promise_of; now rewrite Hf).
  destruct a as [v|cb|cb|rid' st tx rp|rid' loaded total|rid']; cbn [step].
  - rewrite load_fetches. now rewrite (promise_of_app_l _ _ _ _ Hf).
  - exact Hself.
  - exact Hself.
  - assert (rid' <> rid) by (intros ->; eapply Hload; eauto).
    unfold fire_load at 1. destruct (fetches w !! rid') as [f'|] eqn:Hf'; [|exact Hself].
    destruct (XHR.sent (request f')) eqn:Hsent; [|exact Hself].
    fold (fire_load JSON_parse rid' st tx rp w) in *.
    assert (Heq := fire_load_promise w rid' f' st tx rp rid Hf' Hsent).
    rewrite decide_False in Heq by assumption.
    unfold fire_load in Heq. rewrite Hf', Hsent in Heq. now rewrite Heq.
  - now rewrite fire_progress_fetches.
  - assert (rid' <> rid) by congruence.
    destruct (fetches w !! rid') as [f'|] eqn:Hf'.
    + destruct (XHR.sent (request f')) eqn:Hsent.
      * rewrite (fire_error_promise _ _ _ _ Hf' Hsent). now rewrite decide_False.
      * unfold fire_error. now rewrite Hf', Hsent.
    + unfold fire_error. now rewrite Hf'.
Qed.

(** The promise a dispatch returns: pending with the request sent, unless
    the loader has no hint and the URL has no [indexOf] method.  Then the
    TypeError raised in the executor rejects it and nothing is sent. *)
Lemma new_Promise_outcome L url index :
  (promise (new_Promise L url index), XHR.sent (request (new_Promise L url index)))
  = if truthy (responseType L) then (Pending, true)
    else match call_indexOf url suffix (position L) with
         | Normal _ => (Pending, true)
         | Throw e => (Rejected e, false)
         end.
Proof.
  unfold new_Promise, executor, choose_responseType.
  destruct (truthy (responseType L)); [reflexivity|].
  destruct (call_indexOf url suffix (position L)) as [k|e]; [|reflexivity].
  now destruct (k =? -1)%Z.
Qed.


(** When the parser throws on the payload of an accepted completion, the
    exception leaves the load listener: the promise stays pending. *)
Lemma parse_failure_escapes w rid f st tx text e :
  fetches w !! rid = Some f ->
  XHR.sent (request f) = true ->
  accepted st = true ->
  XHR.responseType (request f) = VStr "json" ->
  JSON_parse text = Throw e ->
  promise_of (fetches (step JSON_parse w (XhrLoad rid st tx (VStr text)))) rid = promise f
  /\ uncaught (step JSON_parse w (XhrLoad rid st tx (VStr text))) = uncaught w ++ [e].
Proof.
  intros Hf Hsent Hst Hjson Hparse. split.
  - cbn [step]. rewrite (fire_load_promise _ _ _ _ _ _ _ Hf Hsent).
    rewrite decide_True by reflexivity. unfold load_listener.
    cbn [XHR.complete XHR.status XHR.responseType XHR.response]. rewrite Hst, Hjson.
    cbn. rewrite Hparse. cbn. now destruct (promise f).
  - cbn [step]. unfold fire_load. rewrite Hf, Hsent. unfold load_listener.
    cbn [XHR.complete XHR.status XHR.responseType XHR.response]. rewrite Hst, Hjson.
    cbn. rewrite Hparse. cbn. unfold set_request. now rewrite Hf.
Qed.

End Settlement.

(** *** Progress notifications *)

Lemma progress_listener_function L index loaded total cb :
  progressCallback L = VFunction cb ->
  progress_listener L index loaded total = Calls cb (progress_record index loaded total).
Proof.
  intros Hcb. unfold progress_listener. rewrite Hcb. cbn [truthy].
  unfold progress_record, progress_fields. now destruct index.
Qed.

Lemma progress_listener_unregistered L index loaded total :
  truthy (progressCallback L) = false ->
  progress_listener L index loaded total = Nothing.
Proof. intros Hcb. unfold progress_listener. now rewrite Hcb. Qed.

Lemma settle_calls rid s w : calls (settle rid s w) = calls w.
Proof. unfold settle. repeat case_match; reflexivity. Qed.

Lemma set_request_calls rid r w : calls (set_request rid r w) = calls w.
Proof. unfold set_request. case_match; reflexivity. Qed.

Lemma settle_tags rid s w : map tag (fetches (settle rid s w)) = map tag (fetches w).
Proof.
  unfold settle. destruct (fetches w !! rid) as [f|] eqn:Hf; [|reflexivity].
  destruct (is_pending (promise f)); [|reflexivity]. cbn [fetches].
  rewrite list_fmap_insert. apply list_insert_id.
  rewrite list_lookup_fmap, Hf. reflexivity.
Qed.

Lemma set_request_tags rid r w f :
  fetches w !! rid = Some f -> tag {| request := r; promise := promise f |} = tag f ->
  map tag (fetches (set_request rid r w)) = map tag (fetches w).
Proof.
  intros Hf Htag. unfold set_request. rewrite Hf. cbn [fetches].
  rewrite list_fmap_insert, Htag. apply list_insert_id.
  rewrite list_lookup_fmap, Hf. reflexivity.
Qed.

Lemma apply_effect_tags rid e w :
  map tag (fetches (apply_effect rid e w)) = map tag (fetches w).
Proof. destruct e; cbn [apply_effect fetches]; auto using settle_tags. Qed.

Section Progress.

Variable JSON_parse : string -> completion value.

Lemma load_listener_tag r p :
  tag {| request := fst (load_listener JSON_parse r); promise := p |}
  = tag {| request := r; promise := p |}.
Proof.
  unfold load_listener, XHR.set_response. repeat case_match; reflexivity.
Qed.

Lemma load_listener_no_call r f arg :
  snd (load_listener JSON_parse r) <> Calls f arg.
Proof. unfold load_listener, XHR.set_response. repeat case_match; discriminate. Qed.

(** A transport event changes neither the loader nor the tags, and the only
    calls it adds are those of a progress event to the callback in the
    slot. *)
Lemma transport_step w a :
  is_transport a = true ->
  this (step JSON_parse w a) = this w
  /\ map tag (fetches (step JSON_parse w a)) = map tag (fetches w)
  /\ forall cb, progressCallback (this w) = VFunction cb ->
       calls (step JSON_parse w a) = calls w ++ delivered (map tag (fetches w)) cb a.
Proof.
  destruct a as [v|c|c|rid st tx rp|rid loaded total|rid]; try discriminate; intros _;
    cbn [step].
  - unfold fire_load. destruct (fetches w !! rid) as [f|] eqn:Hf;
      [|repeat split; intros; cbn; now rewrite app_nil_r].
    destruct (XHR.sent (request f)) eqn:Hsent;
      [|repeat split; intros; cbn; now rewrite app_nil_r].
    pose proof (load_listener_tag (XHR.complete st tx rp (request f)) (promise f)) as Htag.
    pose proof (load_listener_no_call (XHR.complete st tx rp (request f))) as Hcall.
    destruct (load_listener JSON_parse (XHR.complete st tx rp (request f))) as [r e].
    cbn [fst snd] in *. repeat split.
    + now rewrite apply_effect_this, set_request_this.
    + rewrite apply_effect_tags. apply (set_request_tags _ _ _ _ Hf).
      rewrite Htag. reflexivity.
    + intros cb _. cbn [delivered]. rewrite app_nil_r.
      destruct e; cbn [apply_effect calls]; rewrite ?settle_calls, ?set_request_calls;
        try reflexivity.
      exfalso. eapply Hcall; eauto.
  - unfold fire_progress. cbn [delivered]. rewrite list_lookup_fmap.
    destruct (fetches w !! rid) as [f|] eqn:Hf;
      [|repeat split; intros; cbn; now rewrite app_nil_r].
    cbn [fmap option_fmap option_map tag].
    destruct (XHR.sent (request f)) eqn:Hsent;
      [|repeat split; intros; cbn; now rewrite app_nil_r].
    repeat split.
    + apply apply_effect_this.
    + apply apply_effect_tags.
    + intros cb Hcb. now rewrite (progress_listener_function _ _ _ _ _ Hcb).
  - unfold fire_error. destruct (fetches w !! rid) as [f|] eqn:Hf;
      [|repeat split; intros; cbn; now rewrite app_nil_r].
    destruct (XHR.sent (request f)) eqn:Hsent;
      [|repeat split; intros; cbn; now rewrite app_nil_r].
    repeat split.
    + apply settle_this.
    + apply settle_tags.
    + intros cb _. cbn. now rewrite settle_calls, app_nil_r.
Qed.

Lemma transport_run trace : forall w cb,
  forallb is_transport trace = true ->
  progressCallback (this w) = VFunction cb ->
  calls (run JSON_parse w trace)
  = calls w ++ flat_map (delivered (map tag (fetches w)) cb) trace.
Proof.
  induction trace as [|a trace IH]; intros w cb Htr Hcb.
  - cbn. now rewrite app_nil_r.
  - cbn [forallb] in Htr. apply andb_true_iff in Htr as [Ha Htr].
    destruct (transport_step w a Ha) as (Hthis & Htags & Hcalls).
    cbn [run fold_left flat_map]. fold (run JSON_parse (step JSON_parse w a) trace).
    rewrite (IH _ cb Htr) by now rewrite Hthis.
    rewrite Htags, (Hcalls cb Hcb), <- app_assoc. reflexivity.
Qed.

(** C8. The callback a progress notification invokes is the one in the
    slot when the notification fires.  Whatever happened before (which
    callback, if any, was registered when the requests were dispatched,
    and which events fired), a callback [cb] registered now is not called
    by the registration itself, and over any later sequence of transport
    events it is called once per progress event of a sent request, in
    order, with that event's record: the calls logged before the
    registration are followed by exactly these. *)
Theorem progress_goes_to_current_callback w method cb trace
  (Htransport : forallb is_transport trace = true) :
  calls (step JSON_parse w (register method (VFunction cb))) = calls w
  /\ calls (run JSON_parse (step JSON_parse w (register method (VFunction cb))) trace)
     = calls w ++ flat_map (delivered (map tag (fetches w)) cb) trace.
Proof.
  split; [now destruct method|].
  rewrite (transport_run trace _ cb Htransport); now destruct method.
Qed.

End Progress.

Section Records.

Variable JSON_parse : string -> completion value.

Lemma step_tags w a :
  exists new, map tag (fetches (step JSON_parse w a)) = map tag (fetches w) ++ new.
Proof.
  destruct (is_transport a) eqn:Ha.
  - exists []. rewrite app_nil_r. now apply transport_step.
  - destruct a; try discriminate; cbn [step].
    + rewrite load_fetches, map_app. eauto.
    + exists []. now rewrite app_nil_r.
    + exists []. now rewrite app_nil_r.
Qed.

Lemma run_tags trace : forall w,
  exists new, map tag (fetches (run JSON_parse w trace)) = map tag (fetches w) ++ new.
Proof.
  induction trace as [|a trace IH]; intros w.
  - exists []. now rewrite app_nil_r.
  - cbn [run fold_left]. fold (run JSON_parse (step JSON_parse w a) trace).
    destruct (IH (step JSON_parse w a)) as [new2 H2].
    destruct (step_tags w a) as [new1 H1].
    exists (new1 ++ new2). now rewrite H2, H1, app_assoc.
Qed.

(** The tag of the [i]-th fetch of a [load] stays where [load] put it. *)
Lemma dispatched_tag w0 v trace i f0 :
  dispatched (this w0) v !! i = Some f0 ->
  map tag (fetches (run JSON_parse (snd (load v w0)) trace)) !! (length (fetches w0) + i)
  = Some (tag f0).
Proof.
  intros Hi. destruct (run_tags trace (snd (load v w0))) as [new ->].
  rewrite load_fetches.
  assert (Hnew : (fetches w0 ++ dispatched (this w0) v) !! (length (fetches w0) + i)
                 = Some f0)
    by now rewrite lookup_app_r, Nat.add_comm, Nat.add_sub by lia.
  rewrite lookup_app_l.
  - now rewrite list_lookup_fmap, Hnew.
  - rewrite length_map. eapply lookup_lt_Some; eauto.
Qed.

Lemma dispatched_index L v i f0 :
  dispatched L v !! i = Some f0 ->
  XHR.index (request f0)
  = match v with
    | VArray _ => VNum (of_nat i)
    | _ => VUndefined
    end.
Proof.
  intros Hi.
  assert (Hone : forall u, [new_Promise L u VUndefined] !! i = Some f0 ->
                           XHR.index (request f0) = VUndefined).
  { intros u Hu. destruct i; [|discriminate]. injection Hu as <-.
    apply new_Promise_index. }
  destruct v; cbn [dispatched] in Hi; eauto; try discriminate.
  rewrite list_lookup_imap in Hi.
  destruct (elems !! i); [|discriminate]. injection Hi as <-.
  apply new_Promise_index.
Qed.

Lemma progress_step_unregistered w rid loaded total :
  truthy (progressCallback (this w)) = false ->
  calls (step JSON_parse w (XhrProgress rid loaded total)) = calls w.
Proof.
  intros Hcb. cbn [step]. unfold fire_progress. repeat case_match; try reflexivity.
  now rewrite progress_listener_unregistered.
Qed.

(** C6, amended.  Take the [i]-th fetch of a call [load(fileURLs)], sent,
    and any later state of the world.  On a progress notification for it,
    the callback registered then, if there is one, is called once, with a
    record whose fields are [value] (loaded divided by total), [loaded] and
    [total], followed by [index], equal to [i], exactly when [fileURLs] is
    an array; with no callback registered nothing is called. *)
Theorem progress_event_record w0 fileURLs trace i f0 loaded total
  (Hfetch : dispatched (this w0) fileURLs !! i = Some f0)
  (Hsent : XHR.sent (request f0) = true) :
  let w := run JSON_parse (snd (load fileURLs w0)) trace in
  let rid := length (fetches w0) + i in
  (forall cb,
      progressCallback (this w) = VFunction cb ->
      calls (step JSON_parse w (XhrProgress rid loaded total))
      = calls w
        ++ [(cb,
             VObject ([("value", VNum (JS.div loaded total));
                       ("loaded", VNum (of_N loaded));
                       ("total", VNum (of_N total))]
                      ++ match fileURLs with
                         | VArray _ => [("index", VNum (of_nat i))]
                         | _ => []
                         end))])
  /\ (truthy (progressCallback (this w)) = false ->
      calls (step JSON_parse w (XhrProgress rid loaded total)) = calls w).
Proof.
  intros w rid. split; [|apply progress_step_unregistered].
  intros cb Hcb.
  destruct (transport_step JSON_parse w (XhrProgress rid loaded total) eq_refl)
    as (_ & _ & Hcalls).
  rewrite (Hcalls cb Hcb). cbn [delivered]. subst w rid.
  rewrite (dispatched_tag _ _ _ _ _ Hfetch). cbn [tag]. rewrite Hsent.
  rewrite (dispatched_index _ _ _ _ Hfetch).
  now destruct fileURLs.
Qed.

End Records.

(** *** The value field of a progress record *)

Lemma div_bounds loaded total :
  (0 < total)%N -> (loaded <= total)%N -> between_0_and_1 (JS.div loaded total).
Proof.
  intros Hpos Hle. unfold JS.div. destruct total as [|p]; [lia|].
  cbn [between_0_and_1]. unfold Qle. cbn [Qnum Qden]. split; lia.
Qed.

(** C9, amended.  The record a progress notification delivers has a
    [value] field, the quotient of the event's [loaded] by its [total].
    It is a number between 0 and 1 inclusive whenever [total] is positive
    and [loaded] does not exceed it; for a [total] of 0 (a length the
    transport cannot compute) it is NaN when [loaded] is 0 and Infinity
    otherwise. *)
Theorem progress_value_range L index loaded total cb
  (Hcb : progressCallback L = VFunction cb) :
  exists arg,
    progress_listener L index loaded total = Calls cb arg
    /\ get_prop "value" arg = Some (VNum (JS.div loaded total))
    /\ ((0 < total)%N -> (loaded <= total)%N -> between_0_and_1 (JS.div loaded total))
    /\ (total = 0%N ->
        JS.div loaded total = if (loaded =? 0)%N then NaN else PosInf).
Proof.
  exists (progress_record index loaded total). split; [|split; [|split]].
  - now apply progress_listener_function.
  - reflexivity.
  - apply div_bounds.
  - now intros ->.
Qed.

(** *** Aggregates *)

Lemma fulfilled_values_Some ms vs :
  fulfilled_values ms = Some vs <-> ms = map Fulfilled vs.
Proof.
  revert vs. induction ms as [|m ms IH]; intros vs.
  - cbn. split.
    + now intros [= <-].
    + destruct vs; [reflexivity | discriminate].
  - destruct m as [|v|e]; cbn.
    + split; [discriminate | destruct vs; discriminate].
    + destruct (fulfilled_values ms) as [vs'|] eqn:Hvs.
      * split.
        -- intros [= <-]. cbn. f_equal. now apply IH.
        -- destruct vs as [|v' vs]; [discriminate|]. intros [= -> Hms].
           apply IH in Hms. congruence.
      * split; [discriminate|].
        destruct vs as [|v' vs]; [discriminate|]. intros [= -> Hms].
        apply IH in Hms. discriminate.
    + split; [discriminate | destruct vs; discriminate].
Qed.

Lemma fulfilled_values_None ms :
  fulfilled_values ms = None -> (exists e, In (Rejected e) ms) \/ In Pending ms.
Proof.
  induction ms as [|m ms IH]; [discriminate|].
  destruct m as [|v|e]; cbn [fulfilled_values].
  - intros _. right. now left.
  - destruct (fulfilled_values ms); [discriminate|]. intros _.
    destruct (IH eq_refl) as [[e He]|Hp]; [left; exists e|right]; now right.
  - intros _. left. exists e. now left.
Qed.

Lemma first_rejected_Some ms e : first_rejected ms = Some e -> In (Rejected e) ms.
Proof.
  induction ms as [|m ms IH]; [discriminate|].
  destruct m; cbn [first_rejected]; intros H.
  - right. auto.
  - right. auto.
  - injection H as ->. now left.
Qed.

Lemma first_rejected_None ms e : first_rejected ms = None -> ~ In (Rejected e) ms.
Proof.
  induction ms as [|m ms IH]; [intros _ []|].
  destruct m; cbn [first_rejected]; intros H [Hin|Hin]; try discriminate;
    now apply IH.
Qed.

Lemma Promise_all_init_ok ms : all_or_nothing ms (Promise_all_init ms).
Proof.
  unfold Promise_all_init.
  destruct (first_rejected ms) as [e|] eqn:Hrej.
  - now apply first_rejected_Some.
  - destruct (fulfilled_values ms) as [vs|] eqn:Hvs.
    + exists vs. split; [reflexivity|]. now apply fulfilled_values_Some.
    + split.
      * intros e. now apply first_rejected_None.
      * destruct (fulfilled_values_None _ Hvs) as [[e He]|Hp]; [|assumption].
        now apply first_rejected_None in He.
Qed.

Lemma is_member_In rid a : is_member rid a = true <-> In rid (members a).
Proof.
  unfold is_member. rewrite existsb_exists. split.
  - intros (m & Hin & Heq). apply Nat.eqb_eq in Heq. now subst.
  - intros Hin. exists rid. split; [assumption | apply Nat.eqb_refl].
Qed.

Lemma states_of_app ps new ms :
  Forall (fun m => m < length ps) ms -> states_of (ps ++ new) ms = states_of ps ms.
Proof.
  intros Hms. unfold states_of. apply map_ext_Forall.
  eapply Forall_impl; [exact Hms|]. intros m Hm. cbn.
  now rewrite lookup_app_l.
Qed.

Section Insert.

Variables (ps : list pstate) (rid : nat) (s : pstate).
Hypothesis Hpending : ps !! rid = Some Pending.

Lemma rid_in_range : rid < length ps.
Proof. eapply lookup_lt_Some; eauto. Qed.

Lemma state_insert m :
  default Pending (<[rid := s]> ps !! m)
  = if decide (rid = m) then s else default Pending (ps !! m).
Proof.
  case_decide as Heq.
  - subst m. now rewrite list_lookup_insert_eq by apply rid_in_range.
  - now rewrite list_lookup_insert_ne.
Qed.

Lemma states_of_insert_other ms :
  ~ In rid ms -> states_of (<[rid := s]> ps) ms = states_of ps ms.
Proof.
  intros Hnot. unfold states_of. apply map_ext_in. intros m Hm.
  rewrite state_insert. case_decide; [subst m; contradiction | reflexivity].
Qed.

Lemma states_of_insert_member ms : In rid ms -> In s (states_of (<[rid := s]> ps) ms).
Proof.
  intros Hin. unfold states_of. apply in_map_iff. exists rid. split; [|assumption].
  rewrite state_insert. now rewrite decide_True.
Qed.

Lemma states_of_member_pending ms : In rid ms -> In Pending (states_of ps ms).
Proof.
  intros Hin. unfold states_of. apply in_map_iff. exists rid. split; [|assumption].
  now rewrite Hpending.
Qed.

(** A state other than pending that a member had, it still has. *)
Lemma states_of_insert_keeps ms st :
  st <> Pending -> In st (states_of ps ms) -> In st (states_of (<[rid := s]> ps) ms).
Proof.
  intros Hst Hin. unfold states_of in *. apply in_map_iff in Hin as (m & Hm & Hin).
  apply in_map_iff. exists m. split; [|assumption].
  rewrite state_insert. case_decide as Heq; [|assumption].
  subst m. rewrite Hpending in Hm. cbn in Hm. congruence.
Qed.

(** A state a member has after the settlement is the new one or one a
    member had before. *)
Lemma states_of_insert_from ms st :
  In st (states_of (<[rid := s]> ps) ms) -> st = s \/ In st (states_of ps ms).
Proof.
  unfold states_of. intros Hin. apply in_map_iff in Hin as (m & Hm & Hin).
  rewrite state_insert in Hm. case_decide.
  - left. congruence.
  - right. apply in_map_iff. eauto.
Qed.

End Insert.

Lemma react_on_ok ps rid s a :
  ps !! rid = Some Pending ->
  s <> Pending ->
  aggregate_ok ps a ->
  aggregate_ok (<[rid := s]> ps) (react_on (<[rid := s]> ps) rid s a).
Proof.
  intros Hp Hs [Hrange Hok].
  assert (Hrange' : Forall (fun m => m < length (<[rid := s]> ps)) (members a))
    by now rewrite length_insert.
  unfold react_on. destruct (is_member rid a) eqn:Hmem.
  - apply is_member_In in Hmem. split; [exact Hrange'|]. cbn [members outcome].
    destruct (outcome a) as [|v|e] eqn:Hout; cbn [Promise_all_react all_or_nothing] in *.
    + destruct Hok as [Hnorej Hpend].
      destruct s as [|v|e]; [congruence | |].
      * destruct (fulfilled_values (states_of (<[rid := Fulfilled v]> ps) (members a)))
          as [vs|] eqn:Hvs; cbn [all_or_nothing].
        -- exists vs. split; [reflexivity|]. now apply fulfilled_values_Some.
        -- split.
           ++ intros e He. apply (states_of_insert_from _ _ _ Hp) in He as [He|He];
                [discriminate | eapply Hnorej; eauto].
           ++ destruct (fulfilled_values_None _ Hvs) as [[e He]|Hpd]; [|assumption].
              apply (states_of_insert_from _ _ _ Hp) in He as [He|He];
                [discriminate | exfalso; eapply Hnorej; eauto].
      * cbn [all_or_nothing]. now apply states_of_insert_member.
    + destruct Hok as (vs & -> & Hms). exfalso.
      apply (states_of_member_pending _ _ Hp) in Hmem. rewrite Hms in Hmem.
      apply in_map_iff in Hmem as (? & ? & _). discriminate.
    + apply states_of_insert_keeps; [assumption | discriminate | assumption].
  - split; [exact Hrange'|].
    rewrite states_of_insert_other; [assumption | assumption |].
    intros Hin. apply is_member_In in Hin. congruence.
Qed.

Lemma moves_consistent ps als ps' als' :
  moves ps als ps' als' ->
  Forall (aggregate_ok ps) als -> Forall (aggregate_ok ps') als'.
Proof.
  intros Hmoves Hok. destruct Hmoves as [new newa Hnew | rid s Hp Hs].
  - apply Forall_app. split; [|assumption].
    eapply Forall_impl; [exact Hok|]. intros a [Hrange Ha]. split.
    + eapply Forall_impl; [exact Hrange|]. intros m Hm. cbn in *. rewrite length_app. lia.
    + now rewrite states_of_app.
  - apply Forall_map. eapply Forall_impl; [exact Hok|]. intros a Ha.
    now apply react_on_ok.
Qed.

Lemma moves_refl ps als : moves ps als ps als.
Proof.
  rewrite <- (app_nil_r ps) at 2. rewrite <- (app_nil_r als) at 2.
  apply moves_dispatch. constructor.
Qed.

(** An aggregate keeps its place and its members; once settled it keeps
    its outcome; and while it is pending, the rejection of a pending
    member rejects it with that member's reason. *)
Lemma moves_aggregate ps als ps' als' aid a :
  moves ps als ps' als' ->
  Forall (aggregate_ok ps) als ->
  als !! aid = Some a ->
  exists a',
    als' !! aid = Some a'
    /\ members a' = members a
    /\ (outcome a <> Pending -> outcome a' = outcome a)
    /\ (forall rid e,
          In rid (members a) -> outcome a = Pending ->
          default Pending (ps !! rid) = Pending ->
          default Pending (ps' !! rid) = Rejected e ->
          outcome a' = Rejected e).
Proof.
  intros Hmoves Hok Ha. destruct Hmoves as [new newa Hnew | rid0 s Hp Hs].
  - exists a. split; [|split; [reflexivity|split; [reflexivity|]]].
    + rewrite lookup_app_l; [assumption | eapply lookup_lt_Some; eauto].
    + intros rid e Hin _ Hbefore Hafter. exfalso.
      assert (Hrange : rid < length ps).
      { apply (Forall_lookup_1 _ _ _ _ Hok) in Ha. destruct Ha as [Hr _].
        rewrite Forall_forall in Hr. apply Hr. now apply list_elem_of_In. }
      rewrite lookup_app_l in Hafter by assumption. congruence.
  - exists (react_on (<[rid0 := s]> ps) rid0 s a).
    split; [|split; [|split]].
    + now rewrite list_lookup_fmap, Ha.
    + unfold react_on. now destruct (is_member rid0 a).
    + intros Hout. unfold react_on. destruct (is_member rid0 a); [|reflexivity].
      cbn [outcome]. destruct (outcome a); [congruence | reflexivity ..].
    + intros rid e Hin Hout Hbefore Hafter.
      rewrite (state_insert _ _ _ Hp) in Hafter. case_decide as Heq; [|congruence].
      subst rid0 s. unfold react_on.
      apply is_member_In in Hin. rewrite Hin. cbn [outcome]. now rewrite Hout.
Qed.

Lemma promise_of_promises fs rid :
  promise_of fs rid = default Pending (map promise fs !! rid).
Proof. unfold promise_of. rewrite list_lookup_fmap. now destruct (fs !! rid). Qed.

Lemma member_states_promises fs ms :
  member_states fs ms = states_of (map promise fs) ms.
Proof.
  unfold member_states, states_of. apply map_ext. intros m. apply promise_of_promises.
Qed.

Lemma react_promises fs rid s a : react fs rid s a = react_on (map promise fs) rid s a.
Proof. unfold react, react_on. now rewrite member_states_promises. Qed.

Lemma settle_moves w rid s :
  s <> Pending ->
  moves (promises w) (alls w) (promises (settle rid s w)) (alls (settle rid s w)).
Proof.
  intros Hs. unfold settle. destruct (fetches w !! rid) as [f|] eqn:Hf; [|apply moves_refl].
  destruct (promise f) eqn:Hp; cbn [is_pending]; try apply moves_refl.
  unfold promises. cbn [fetches alls].
  rewrite (map_ext _ _ (react_promises _ rid s)).
  rewrite list_fmap_insert. cbn [promise]. apply moves_settle; [|assumption].
  now rewrite list_lookup_fmap, Hf, <- Hp.
Qed.

Lemma set_request_promises rid r w : promises (set_request rid r w) = promises w.
Proof.
  unfold set_request, promises. destruct (fetches w !! rid) as [f|] eqn:Hf; [|reflexivity].
  cbn [fetches]. rewrite list_fmap_insert. cbn [promise]. apply list_insert_id.
  now rewrite list_lookup_fmap, Hf.
Qed.

Lemma set_request_alls rid r w : alls (set_request rid r w) = alls w.
Proof. unfold set_request. now destruct (fetches w !! rid). Qed.

Lemma apply_effect_moves rid e w :
  moves (promises w) (alls w) (promises (apply_effect rid e w)) (alls (apply_effect rid e w)).
Proof.
  destruct e; cbn [apply_effect]; try apply moves_refl;
    apply settle_moves; discriminate.
Qed.

Lemma load_alls v w : alls (snd (load v w)) = alls w ++ aggregated w v.
Proof.
  destruct v; cbn [aggregated]; try (cbn; now rewrite app_nil_r).
  cbn [load]. unfold loadAll. rewrite map_requests_spec. reflexivity.
Qed.

Lemma load_result v w :
  fst (load v w)
  = match v with
    | VUndefined => Throw (Error missing_argument)
    | VArray _ => Normal (PAll (length (alls w)))
    | _ => Normal (PFetch (length (fetches w)))
    end.
Proof.
  destruct v; try reflexivity.
  cbn [load]. unfold loadAll. rewrite map_requests_spec. reflexivity.
Qed.

Lemma dispatched_length L v :
  length (dispatched L v)
  = match v with
    | VUndefined => 0
    | VArray urls => length urls
    | _ => 1
    end.
Proof. destruct v; try reflexivity. cbn. apply length_imap. Qed.

Lemma load_moves v w :
  moves (promises w) (alls w) (promises (snd (load v w))) (alls (snd (load v w))).
Proof.
  unfold promises. rewrite load_fetches, load_alls, map_app.
  apply moves_dispatch. destruct v; cbn [aggregated]; try constructor; [|constructor].
  split; cbn [members outcome].
  - apply Forall_forall. intros m Hm. apply list_elem_of_In, in_seq in Hm.
    rewrite length_app, !length_map. rewrite dispatched_length. lia.
  - rewrite <- map_app, <- member_states_promises.
    apply Promise_all_init_ok.
Qed.

Section Aggregates.

Variable JSON_parse : string -> completion value.

Lemma step_moves w a :
  moves (promises w) (alls w)
    (promises (step JSON_parse w a)) (alls (step JSON_parse w a)).
Proof.
  destruct a as [v|cb|cb|rid st tx rp|rid loaded total|rid]; cbn [step].
  - apply load_moves.
  - apply moves_refl.
  - apply moves_refl.
  - unfold fire_load. destruct (fetches w !! rid) as [f|]; [|apply moves_refl].
    destruct (XHR.sent (request f)); [|apply moves_refl].
    destruct (load_listener JSON_parse (XHR.complete st tx rp (request f))) as [r e].
    rewrite <- (set_request_promises rid r w) at 1.
    rewrite <- (set_request_alls rid r w) at 1.
    apply apply_effect_moves.
  - unfold fire_progress. destruct (fetches w !! rid) as [f|]; [|apply moves_refl].
    destruct (XHR.sent (request f)); [|apply moves_refl].
    apply apply_effect_moves.
  - unfold fire_error. destruct (fetches w !! rid) as [f|]; [|apply moves_refl].
    destruct (XHR.sent (request f)); [|apply moves_refl].
    apply apply_effect_moves.
Qed.

Lemma step_consistent w a : consistent w -> consistent (step JSON_parse w a).
Proof. apply moves_consistent, step_moves. Qed.

Lemma run_consistent trace : forall w,
  consistent w -> consistent (run JSON_parse w trace).
Proof.
  induction trace as [|a trace IH]; intros w Hw; [assumption|].
  cbn [run fold_left]. apply IH. now apply step_consistent.
Qed.

Lemma new_Loader_consistent hint : consistent (new_Loader hint).
Proof. constructor. Qed.

Lemma run_aggregate trace : forall w aid a,
  consistent w -> alls w !! aid = Some a ->
  exists a', alls (run JSON_parse w trace) !! aid = Some a' /\ members a' = members a.
Proof.
  induction trace as [|act trace IH]; intros w aid a Hw Ha; [eauto|].
  destruct (moves_aggregate _ _ _ _ _ _ (step_moves w act) Hw Ha) as (a1 & Ha1 & Hm1 & _).
  destruct (IH _ _ _ (step_consistent w act Hw) Ha1) as (a' & Ha' & Hm').
  exists a'. split; [exact Ha' | congruence].
Qed.

End Aggregates.

Lemma map_Fulfilled_inj vs vs' : map Fulfilled vs = map Fulfilled vs' -> vs = vs'.
Proof.
  revert vs'. induction vs as [|v vs IH]; intros [|v' vs']; try discriminate.
  - reflexivity.
  - cbn. intros [= -> H]. f_equal. now apply IH.
Qed.

Lemma not_In_map_Fulfilled st vs :
  In st (map Fulfilled vs) -> exists v, st = Fulfilled v.
Proof. intros H. apply in_map_iff in H as (v & <- & _). eauto. Qed.

Section LoadAll.

Variable JSON_parse : string -> completion value.

(** C1.  Take a loader in any state it can reach, call [load] on an array
    of URLs, and let anything happen afterwards.  [load] returned an
    aggregate promise over one fetch per URL, the fetch at each position
    being the one of the URL at that position, tagged with it.  Whatever
    the order in which the fetches settled:
    - when every fetch is fulfilled, the aggregate is fulfilled with the
      array of their payloads in input order (for no URL at all: with the
      empty array, at once);
    - the aggregate is fulfilled only in that case, with an array as long
      as the input;
    - when some fetch is rejected, the aggregate is rejected with the
      reason of a rejected fetch, never fulfilled with part of the results;
    - a settled aggregate keeps its outcome, and a pending one is rejected
      by the first rejection of a member, with that member's reason. *)
Theorem load_all_outcome hint before urls after :
  let w0 := run JSON_parse (new_Loader hint) before in
  let w := run JSON_parse (snd (load (VArray urls) w0)) after in
  let rids := seq (length (fetches w0)) (length urls) in
  fst (load (VArray urls) w0) = Normal (PAll (length (alls w0)))
  /\ (forall i url,
        urls !! i = Some url ->
        exists f,
          fetches w !! (length (fetches w0) + i) = Some f
          /\ XHR.url (request f) = url
          /\ XHR.index (request f) = VNum (of_nat i))
  /\ exists a,
       alls w !! length (alls w0) = Some a
       /\ members a = rids
       /\ (forall vs,
             member_states (fetches w) rids = map Fulfilled vs ->
             outcome a = Fulfilled (VArray vs))
       /\ (urls = [] -> outcome a = Fulfilled (VArray []))
       /\ (forall v,
             outcome a = Fulfilled v ->
             exists vs,
               v = VArray vs /\ length vs = length urls
               /\ member_states (fetches w) rids = map Fulfilled vs)
       /\ (forall e,
             In (Rejected e) (member_states (fetches w) rids) ->
             exists e',
               outcome a = Rejected e'
               /\ In (Rejected e') (member_states (fetches w) rids))
       /\ (forall act,
             exists a',
               alls (step JSON_parse w act) !! length (alls w0) = Some a'
               /\ (outcome a <> Pending -> outcome a' = outcome a)
               /\ (forall rid e,
                     In rid rids -> outcome a = Pending ->
                     promise_of (fetches w) rid = Pending ->
                     promise_of (fetches (step JSON_parse w act)) rid = Rejected e ->
                     outcome a' = Rejected e)).
Proof.
  intros w0 w rids.
  assert (Hw0 : consistent w0) by apply run_consistent, new_Loader_consistent.
  assert (Hw1 : consistent (snd (load (VArray urls) w0)))
    by apply (step_consistent JSON_parse w0 (Load (VArray urls)) Hw0).
  assert (Hw : consistent w) by now apply run_consistent.
  split; [apply load_result|]. split.
  - intros i url Hi.
    assert (Hd : dispatched (this w0) (VArray urls) !! i
                 = Some (new_Promise (this w0) url (VNum (of_nat i))))
      by (cbn [dispatched]; now rewrite list_lookup_imap, Hi).
    pose proof (dispatched_tag JSON_parse w0 (VArray urls) after i _ Hd) as Htag.
    fold w in Htag. rewrite list_lookup_fmap in Htag.
    destruct (fetches w !! (length (fetches w0) + i)) as [f|]; [|discriminate].
    exists f. split; [reflexivity|]. cbn in Htag. unfold tag in Htag.
    injection Htag as Hurl Hindex _ _.
    rewrite Hurl, Hindex, new_Promise_url, new_Promise_index. auto.
  - assert (Ha1 : exists a1, alls (snd (load (VArray urls) w0)) !! length (alls w0) = Some a1
                             /\ members a1 = rids).
    { rewrite load_alls. cbn [aggregated]. eexists. split.
      - rewrite lookup_app_r, Nat.sub_diag by lia. reflexivity.
      - reflexivity. }
    destruct Ha1 as (a1 & Ha1 & Hm1).
    destruct (run_aggregate JSON_parse after _ _ _ Hw1 Ha1) as (a & Ha & Hm).
    fold w in Ha. exists a. rewrite Hm1 in Hm.
    assert (Hok : all_or_nothing (member_states (fetches w) rids) (outcome a)).
    { apply (Forall_lookup_1 _ _ _ _ Hw) in Ha as [_ Hok].
      now rewrite member_states_promises, <- Hm. }
    assert (Hall : forall vs,
               member_states (fetches w) rids = map Fulfilled vs ->
               outcome a = Fulfilled (VArray vs)).
    { intros vs Hvs. rewrite Hvs in Hok. destruct (outcome a) as [|v|e]; cbn in Hok.
      - destruct Hok as [_ Hp]. apply not_In_map_Fulfilled in Hp as [? ?]. discriminate.
      - destruct Hok as (vs' & -> & Heq). now rewrite (map_Fulfilled_inj _ _ Heq).
      - apply not_In_map_Fulfilled in Hok as [? ?]. discriminate. }
    split; [exact Ha|]. split; [exact Hm|]. split; [exact Hall|]. split; [|split; [|split]].
    + intros ->. apply (Hall []). reflexivity.
    + intros v Hv. rewrite Hv in Hok. destruct Hok as (vs & -> & Hvs).
      exists vs. split; [reflexivity|]. split; [|assumption].
      apply (f_equal (@length _)) in Hvs. unfold member_states in Hvs.
      rewrite !length_map in Hvs. unfold rids in Hvs. rewrite length_seq in Hvs. congruence.
    + intros e He. destruct (outcome a) as [|v|e'] eqn:Hout; cbn in Hok.
      * destruct Hok as [Hnone _]. exfalso. eapply Hnone; eauto.
      * destruct Hok as (vs & _ & Hvs). rewrite Hvs in He.
        apply not_In_map_Fulfilled in He as [? ?]. discriminate.
      * eauto.
    + intros act.
      destruct (moves_aggregate _ _ _ _ _ _ (step_moves JSON_parse w act) Hw Ha)
        as (a' & Ha' & _ & Hstable & Hfirst).
      exists a'. split; [exact Ha'|]. split; [exact Hstable|].
      intros rid e Hin Hout Hbefore Hafter.
      apply (Hfirst rid e); [now rewrite Hm | assumption | |].
      * unfold promises. now rewrite <- promise_of_promises.
      * unfold promises. now rewrite <- promise_of_promises.
Qed.

End LoadAll.

(** ** The model at work *)



(** C5, at the URL ['data.json'] on a loader without hint, when the
    transport completes with status 200 and the text [{bad]: the parser's
    SyntaxError leaves the load listener uncaught, and the promise of the
    fetch is still pending: it was neither rejected nor resolved. *)
Theorem malformed_json_leaves_promise_pending :
  JSON.parse "{bad" = Throw (SyntaxError "Unexpected token in JSON")
  /\ run JSON.parse (new_Loader VUndefined)
       [Load (VStr "data.json"); XhrLoad 0 200 "OK" (VStr "{bad")]
     = {| this := constructor VUndefined;
          fetches :=
            [{| request :=
                  {| XHR.url := VStr "data.json"; XHR.index := VUndefined;
                     XHR.responseType := VStr "json"; XHR.sent := true;
                     XHR.status := 200; XHR.statusText := "OK";
                     XHR.response := VStr "{bad" |};
                promise := Pending |}];
          alls := []; calls := [];
          uncaught := [SyntaxError "Unexpected token in JSON"] |}.
Proof. split; reflexivity. Qed.

(** C6, witness: the second fetch of [load(['a.json', 'b.bin'])] and the
    fetch of [load('sound.wav')], with callback 7 registered afterwards. *)
Lemma progress_event_record_witness :
  calls (step JSON.parse
           (run JSON.parse two_fetches [OnProgress (VFunction 7)])
           (XhrProgress 1 10 40))
  = [(7, VObject [("value", VNum (Fin (10 # 40))); ("loaded", VNum (of_N 10));
                  ("total", VNum (of_N 40)); ("index", VNum (of_nat 1))])]
  /\ calls (step JSON.parse
              (run JSON.parse one_fetch [OnProgress (VFunction 7)])
              (XhrProgress 0 10 40))
     = [(7, VObject [("value", VNum (Fin (10 # 40))); ("loaded", VNum (of_N 10));
                     ("total", VNum (of_N 40))])].
Proof.
  split.
  - refine (proj1 (progress_event_record JSON.parse (new_Loader VUndefined)
                     (VArray [VStr "a.json"; VStr "b.bin"]) [OnProgress (VFunction 7)]
                     1 _ 10 40 eq_refl eq_refl) 7 eq_refl).
  - refine (proj1 (progress_event_record JSON.parse (new_Loader VUndefined)
                     (VStr "sound.wav") [OnProgress (VFunction 7)]
                     0 _ 10 40 eq_refl eq_refl) 7 eq_refl).
Defined.

(** C6, as stated, fails on the name of the first field: the record the
    callback receives has no [fraction]; the quotient is its [value]. *)
Lemma progress_record_has_no_fraction :
  calls (run JSON.parse (new_Loader VUndefined)
           [OnProgress (VFunction 7); Load (VStr "sound.wav"); XhrProgress 0 10 40])
  = [(7, progress_record VUndefined 10 40)]
  /\ get_prop "fraction" (progress_record VUndefined 10 40) = None
  /\ get_prop "value" (progress_record VUndefined 10 40) = Some (VNum (Fin (10 # 40))).
Proof. split; [|split]; reflexivity. Qed.

(** C8, witness: callback 2 replaces callback 1 while ['sound.wav'] is
    loading.  The event delivered to 1 before is not delivered again, the
    two events that follow go to 2. *)
Lemma progress_goes_to_current_callback_witness :
  calls (run JSON.parse (step JSON.parse one_fetch_in_progress (register false (VFunction 2)))
           [XhrProgress 0 512 1024; XhrProgress 0 1024 1024;
            XhrLoad 0 200 "OK" (VArrayBuffer [])])
  = [(1, progress_record VUndefined 256 1024);
     (2, progress_record VUndefined 512 1024);
     (2, progress_record VUndefined 1024 1024)].
Proof.
  exact (proj2 (progress_goes_to_current_callback JSON.parse one_fetch_in_progress false 2
                  [XhrProgress 0 512 1024; XhrProgress 0 1024 1024;
                   XhrLoad 0 200 "OK" (VArrayBuffer [])]
                  eq_refl)).
Defined.

(** C9, witness: 256 bytes out of 1024. *)
Lemma progress_value_range_witness :
  between_0_and_1 (JS.div 256 1024).
Proof.
  destruct (progress_value_range (onProgress (VFunction 1) (constructor VUndefined))
              VUndefined 256 1024 1 eq_refl)
    as (arg & _ & _ & Hrange & _).
  apply Hrange; [reflexivity | discriminate].
Defined.

(** C9, as stated, fails when the transport cannot compute the length of
    the response: the event has a [total] of 0, and the [value] delivered
    with 512 bytes loaded is Infinity, which is not between 0 and 1. *)
Lemma progress_value_infinite :
  calls (run JSON.parse (new_Loader VUndefined)
           [OnProgress (VFunction 1); Load (VStr "sound.wav"); XhrProgress 0 512 0])
  = [(1, VObject [("value", VNum PosInf); ("loaded", VNum (of_N 512));
                  ("total", VNum (of_N 0))])]
  /\ ~ between_0_and_1 PosInf.
Proof. split; [reflexivity | intros []]. Qed.

(** The scenario of two files: ['a.json'] arrives as the object the
    transport parsed, ['b.bin'] as bytes; the aggregate is fulfilled with
    both, in input order, also when ['b.bin'] completes first. *)
Example two_files_resolve_in_input_order :
  map outcome
    (alls (run JSON.parse two_fetches
             [XhrLoad 1 200 "OK" (VArrayBuffer [1; 2; 3]%N);
              XhrLoad 0 200 "OK" (VObject [("x", VNum (Fin 1))])]))
  = [Fulfilled (VArray [VObject [("x", VNum (Fin 1))]; VArrayBuffer [1; 2; 3]%N])].
Proof. reflexivity. Qed.

(** With a status of 500 for ['b.bin'], the aggregate is rejected with the
    status text, whatever ['a.json'] does afterwards. *)
Example two_files_reject_with_status_text :
  map outcome
    (alls (run JSON.parse two_fetches
             [XhrLoad 1 500 "Internal Server Error" VNull;
              XhrLoad 0 200 "OK" (VObject [("x", VNum (Fin 1))])]))
  = [Rejected (Error "Internal Server Error")].
Proof. reflexivity. Qed.

(** [load([])] is fulfilled with the empty array. *)
Example empty_array_resolves :
  map outcome (alls (snd (load (VArray []) (new_Loader VUndefined))))
  = [Fulfilled (VArray [])].
Proof. reflexivity. Qed.

(** A URL that ends in ['.json'], on a loader without hint. *)
Lemma ends_with_json_requests_json_witness :
  choose_responseType (constructor VUndefined) (VStr "presets/room.json")
  = Normal (VStr "json").
Proof.
  apply (ends_with_json_requests_json (constructor VUndefined) "presets/room.json");
    reflexivity.
Defined.

(** The text [oops] for ['a.json'], first of two files: the parser's
    exception is reported by the host, the promise stays pending. *)
Lemma parse_failure_escapes_witness :
  promise_of (fetches (step JSON.parse two_fetches (XhrLoad 0 200 "OK" (VStr "oops")))) 0
  = Pending
  /\ uncaught (step JSON.parse two_fetches (XhrLoad 0 200 "OK" (VStr "oops")))
     = [SyntaxError "Unexpected token in JSON"].
Proof.
  exact (parse_failure_escapes JSON.parse two_fetches 0
           {| request := XHR.send (XHR.set_responseType (VStr "json")
                                     (XHR.set_index (VNum (of_nat 0))
                                        (XHR.open (VStr "a.json"))));
              promise := Pending |}
           200 "OK" "oops" (SyntaxError "Unexpected token in JSON")
           eq_refl eq_refl eq_refl eq_refl eq_refl).
Defined.

(** ** Further properties of the class *)

(** *** The content type, without a hint *)

(** On a loader without hint, a URL is requested as json exactly when
    ['.json'] occurs somewhere in it (at its end or not), and as
    arraybuffer exactly when it occurs nowhere. *)
Theorem no_hint_json_iff_occurs L (url : string)
  (Hhint : truthy (responseType L) = false) :
  (choose_responseType L (VStr url) = Normal (VStr "json")
   <-> exists m, substring m (String.length suffix) url = suffix)
  /\ (choose_responseType L (VStr url) = Normal (VStr "arraybuffer")
      <-> forall m, substring m (String.length suffix) url <> suffix).
Proof.
  rewrite choose_responseType_no_hint by assumption.
  destruct (String.index 0 suffix url) as [k|] eqn:Hidx.
  - pose proof (index_correct1 _ _ _ _ Hidx) as Hk. split; split.
    + intros _. eauto.
    + reflexivity.
    + discriminate.
    + intros Hno. exfalso. eapply Hno; eauto.
  - assert (Hno : forall m, substring m (String.length suffix) url <> suffix).
    { intros m. refine (index_correct3 0 m suffix url Hidx _ _); [discriminate | lia]. }
    split; split.
    + discriminate.
    + intros [m Hm]. exfalso. eapply Hno; eauto.
    + intros _. exact Hno.
    + reflexivity.
Qed.

Lemma no_hint_json_iff_occurs_witness :
  choose_responseType (constructor VUndefined) (VStr "api/v1.json/tracks")
  = Normal (VStr "json")
  /\ choose_responseType (constructor VUndefined) (VStr "drums/snare.wav")
     = Normal (VStr "arraybuffer").
Proof.
  split.
  - apply (proj1 (no_hint_json_iff_occurs (constructor VUndefined) "api/v1.json/tracks"
                    eq_refl)).
    exists 6. reflexivity.
  - reflexivity.
Defined.

Lemma new_Promise_falsy_hint hint url index :
  truthy hint = false ->
  new_Promise (constructor hint) url index = new_Promise (constructor VUndefined) url index.
Proof.
  intros Hhint. unfold new_Promise, executor, choose_responseType.
  cbn [responseType constructor]. rewrite Hhint. reflexivity.
Qed.

(** A loader constructed with a falsy hint (the empty string, which the
    constructor's documentation equates with ['text'], or [null], [0],
    [false]) creates for every argument of [load] the same requests, with
    the same content types and the same initial promises, as a loader
    constructed without hint: the hint is ignored and the type is taken
    from the URL. *)
Theorem falsy_hint_dispatches_as_no_hint hint fileURLs
  (Hhint : truthy hint = false) :
  dispatched (constructor hint) fileURLs = dispatched (constructor VUndefined) fileURLs.
Proof.
  destruct fileURLs; cbn [dispatched]; try reflexivity;
    try (f_equal; now apply new_Promise_falsy_hint).
  apply imap_ext. intros i url _. now apply new_Promise_falsy_hint.
Qed.

Lemma falsy_hint_dispatches_as_no_hint_witness :
  map (fun f => XHR.responseType (request f))
    (dispatched (constructor (VStr "")) (VArray [VStr "a.json"; VStr "notes.txt"]))
  = [VStr "json"; VStr "arraybuffer"].
Proof.
  rewrite (falsy_hint_dispatches_as_no_hint (VStr "")
             (VArray [VStr "a.json"; VStr "notes.txt"]) eq_refl).
  reflexivity.
Defined.

(** *** What an action leaves alone *)

Lemma load_calls v w : calls (snd (load v w)) = calls w.
Proof.
  destruct v; try reflexivity.
  cbn [load]. unfold loadAll. rewrite map_requests_spec. reflexivity.
Qed.

Lemma settle_alls_length rid s w : length (alls (settle rid s w)) = length (alls w).
Proof. unfold settle. repeat case_match; cbn [alls]; now rewrite ?length_map. Qed.

Lemma apply_effect_alls_length rid e w :
  length (alls (apply_effect rid e w)) = length (alls w).
Proof. destruct e; cbn [apply_effect alls]; auto using settle_alls_length. Qed.

Lemma settle_alls_lookup rid s w aid a :
  alls w !! aid = Some a -> is_member rid a = false ->
  alls (settle rid s w) !! aid = Some a.
Proof.
  intros Ha Hmem. unfold settle. repeat case_match; try assumption.
  cbn [alls]. rewrite list_lookup_fmap, Ha. cbn. unfold react. now rewrite Hmem.
Qed.

Lemma apply_effect_alls_lookup rid e w aid a :
  alls w !! aid = Some a -> is_member rid a = false ->
  alls (apply_effect rid e w) !! aid = Some a.
Proof.
  intros Ha Hmem. destruct e; cbn [apply_effect alls]; auto using settle_alls_lookup.
Qed.

Lemma after_effect_settled e p : p <> Pending -> after_effect e p = p.
Proof. destruct p; [congruence | reflexivity ..]. Qed.

Lemma promise_of_not_pending fs rid p :
  promise_of fs rid = p -> p <> Pending ->
  exists f, fs !! rid = Some f /\ promise f = p.
Proof.
  unfold promise_of. destruct (fs !! rid) as [f|]; [eauto | congruence].
Qed.

Section Frames.

Variable JSON_parse : string -> completion value.

Lemma step_this a w : is_registration a = false -> this (step JSON_parse w a) = this w.
Proof.
  destruct a; try discriminate; intros _; cbn [step].
  - apply load_this.
  - unfold fire_load. repeat case_match; try reflexivity.
    now rewrite apply_effect_this, set_request_this.
  - unfold fire_progress. repeat case_match; try reflexivity. apply apply_effect_this.
  - unfold fire_error. repeat case_match; try reflexivity. apply apply_effect_this.
Qed.

Lemma step_hint a w :
  responseType (this (step JSON_parse w a)) = responseType (this w).
Proof.
  destruct (is_registration a) eqn:Ha.
  - destruct a; try discriminate; reflexivity.
  - now rewrite step_this.
Qed.

Lemma fire_load_calls rid st tx rp w :
  calls (fire_load JSON_parse rid st tx rp w) = calls w.
Proof.
  unfold fire_load. destruct (fetches w !! rid) as [f|]; [|reflexivity].
  destruct (XHR.sent (request f)); [|reflexivity].
  pose proof (load_listener_no_call JSON_parse (XHR.complete st tx rp (request f))) as Hno.
  destruct (load_listener JSON_parse (XHR.complete st tx rp (request f))) as [r e].
  cbn [snd] in Hno.
  destruct e; cbn [apply_effect calls];
    rewrite ?settle_calls, ?set_request_calls; try reflexivity.
  exfalso. eapply Hno; eauto.
Qed.

Lemma fire_error_calls rid w : calls (fire_error rid w) = calls w.
Proof.
  unfold fire_error. repeat case_match; try reflexivity.
  cbn. apply settle_calls.
Qed.

Lemma fire_progress_alls rid loaded total w :
  alls (fire_progress rid loaded total w) = alls w.
Proof.
  unfold fire_progress. repeat case_match; try reflexivity.
  unfold progress_listener. repeat case_match; reflexivity.
Qed.

(** Completion and progress are two channels.  A completion or a failure
    of the transport never calls the progress callback, whatever is
    registered; a progress notification never settles a promise, changes a
    request or touches an aggregate, whatever the byte counts. *)
Theorem completion_and_progress_are_separate w rid :
  (forall st tx rp, calls (step JSON_parse w (XhrLoad rid st tx rp)) = calls w)
  /\ calls (step JSON_parse w (XhrError rid)) = calls w
  /\ (forall loaded total,
        fetches (step JSON_parse w (XhrProgress rid loaded total)) = fetches w
        /\ alls (step JSON_parse w (XhrProgress rid loaded total)) = alls w).
Proof.
  split; [|split].
  - intros st tx rp. apply fire_load_calls.
  - apply fire_error_calls.
  - intros loaded total. split; [apply fire_progress_fetches | apply fire_progress_alls].
Qed.

Lemma step_settled w rid f a :
  fetches w !! rid = Some f -> promise f <> Pending ->
  promise_of (fetches (step JSON_parse w a)) rid = promise f.
Proof.
  intros Hf Hp.
  assert (Hself : promise_of (fetches w) rid = promise f)
    by (unfold promise_of; now rewrite Hf).
  destruct a as [v|cb|cb|rid' st tx rp|rid' loaded total|rid'];
    try (apply step_other_promise; [assumption | discriminate | discriminate]).
  - destruct (decide (rid' = rid)) as [->|Hne].
    + cbn [step]. destruct (XHR.sent (request f)) eqn:Hsent.
      * rewrite (fire_load_promise _ _ _ _ _ _ _ _ Hf Hsent).
        rewrite decide_True by reflexivity. now apply after_effect_settled.
      * unfold fire_load. now rewrite Hf, Hsent.
    + apply step_other_promise; [assumption | congruence | discriminate].
  - destruct (decide (rid' = rid)) as [->|Hne].
    + cbn [step]. destruct (XHR.sent (request f)) eqn:Hsent.
      * rewrite (fire_error_promise _ _ _ _ Hf Hsent).
        rewrite decide_True by reflexivity. now apply after_effect_settled.
      * unfold fire_error. now rewrite Hf, Hsent.
    + apply step_other_promise; [assumption | discriminate | congruence].
Qed.

(** A fetch settles once.  Whatever follows the settlement of its promise
    (a second completion, a failure after a success, a success after a
    rejection at dispatch, further loads and registrations), the promise
    keeps the state and the value or reason it settled with. *)
Theorem settled_promise_is_final trace : forall w rid f
  (Hfetch : fetches w !! rid = Some f)
  (Hsettled : promise f <> Pending),
  promise_of (fetches (run JSON_parse w trace)) rid = promise f.
Proof.
  induction trace as [|a trace IH]; intros w rid f Hf Hp.
  - cbn. unfold promise_of. now rewrite Hf.
  - cbn [run fold_left]. fold (run JSON_parse (step JSON_parse w a) trace).
    pose proof (step_settled w rid f a Hf Hp) as Hstep.
    destruct (promise_of_not_pending _ _ _ Hstep Hp) as (f' & Hf' & Hp').
    rewrite (IH _ rid f' Hf'); congruence.
Qed.

Lemma step_created w a :
  length (fetches (step JSON_parse w a)) = length (fetches w) + fst (created a)
  /\ length (alls (step JSON_parse w a)) = length (alls w) + snd (created a).
Proof.
  destruct (is_transport a) eqn:Ha.
  - destruct (transport_step JSON_parse w a Ha) as (_ & Htags & _).
    apply (f_equal (@length _)) in Htags. rewrite !length_map in Htags.
    split; [destruct a; try discriminate; cbn [created fst]; lia|].
    destruct a as [v|cb|cb|rid st tx rp|rid loaded total|rid]; try discriminate;
      cbn [created snd step]; rewrite Nat.add_0_r.
    + unfold fire_load. repeat case_match; try reflexivity.
      now rewrite apply_effect_alls_length, set_request_alls.
    + now rewrite fire_progress_alls.
    + unfold fire_error. repeat case_match; try reflexivity.
      apply apply_effect_alls_length.
  - destruct a as [v|cb|cb|rid st tx rp|rid loaded total|rid]; try discriminate;
      cbn [step]; try (cbn; lia).
    rewrite load_fetches, load_alls, !length_app, dispatched_length.
    destruct v; cbn; lia.
Qed.

(** Requests are created by [load] only, one per URL of an array, one for
    any other argument except [undefined], whatever requests exist already
    (a URL loaded before is requested again: nothing is cached or shared);
    an aggregate is created per array, the empty one included.  Transport
    events and registrations create nothing, and nothing is ever removed:
    along a trace the counts add up. *)
Theorem requests_are_created_by_load_only trace : forall w,
  length (fetches (run JSON_parse w trace))
  = length (fetches w) + sum_list_with (fun a => fst (created a)) trace
  /\ length (alls (run JSON_parse w trace))
     = length (alls w) + sum_list_with (fun a => snd (created a)) trace.
Proof.
  induction trace as [|a trace IH]; intros w.
  - cbn. lia.
  - cbn [run fold_left sum_list_with]. fold (run JSON_parse (step JSON_parse w a) trace).
    destruct (IH (step JSON_parse w a)) as [Hf Ha].
    destruct (step_created w a) as [Hf1 Ha1]. lia.
Qed.

End Frames.

(** *** The callback slot, at its edges *)

Section Edges.

Variable JSON_parse : string -> completion value.

(** A registered value that is truthy but not a function (a string, a
    number, an object) is called all the same: each progress notification
    of a sent request then raises a TypeError in the listener.  Nothing is
    called, and no promise, request or aggregate changes. *)
Theorem non_function_callback_throws w rid f loaded total
  (Hfetch : fetches w !! rid = Some f)
  (Hsent : XHR.sent (request f) = true)
  (Htruthy : truthy (progressCallback (this w)) = true)
  (Hnot_function : forall cb, progressCallback (this w) <> VFunction cb) :
  step JSON_parse w (XhrProgress rid loaded total)
  = {| this := this w; fetches := fetches w; alls := alls w; calls := calls w;
       uncaught := uncaught w ++ [TypeError "this.progressCallback is not a function"] |}.
Proof.
  cbn [step]. unfold fire_progress. rewrite Hfetch, Hsent.
  unfold progress_listener. rewrite Htruthy.
  destruct (progressCallback (this w)) eqn:Hcb; try reflexivity.
  exfalso. eapply Hnot_function; eauto.
Qed.

Lemma silent_step w a :
  truthy (progressCallback (this w)) = false ->
  is_registration a = false ->
  calls (step JSON_parse w a) = calls w.
Proof.
  intros Hslot Ha.
  destruct a as [v|cb|cb|rid st tx rp|rid loaded total|rid]; try discriminate; cbn [step].
  - apply load_calls.
  - apply fire_load_calls.
  - unfold fire_progress. repeat case_match; try reflexivity.
    unfold progress_listener. now rewrite Hslot.
  - apply fire_error_calls.
Qed.

(** While the slot holds no callback (as in a new loader, or after
    [undefined], [null] or another falsy value was assigned to it) and
    until something is registered, nothing is called: loads, progress
    notifications, completions and failures leave the log of calls as it
    was. *)
Theorem silent_without_callback trace : forall w
  (Hslot : truthy (progressCallback (this w)) = false)
  (Htrace : forallb (fun a => negb (is_registration a)) trace = true),
  calls (run JSON_parse w trace) = calls w.
Proof.
  induction trace as [|a trace IH]; intros w Hslot Htrace; [reflexivity|].
  cbn [forallb] in Htrace. apply andb_true_iff in Htrace as [Ha Htrace].
  apply negb_true_iff in Ha.
  cbn [run fold_left]. fold (run JSON_parse (step JSON_parse w a) trace).
  rewrite IH.
  - now apply silent_step.
  - now rewrite step_this.
  - assumption.
Qed.

(** A request is what its dispatch made it.  The URL, the index, the
    content type and whether it was sent are the same in every later
    state of the world, and so is the hint of the loader: no load,
    registration or transport event changes them. *)
Theorem request_is_fixed_at_dispatch w trace rid f
  (Hfetch : fetches w !! rid = Some f) :
  responseType (this (run JSON_parse w trace)) = responseType (this w)
  /\ exists f',
       fetches (run JSON_parse w trace) !! rid = Some f'
       /\ XHR.url (request f') = XHR.url (request f)
       /\ XHR.index (request f') = XHR.index (request f)
       /\ XHR.responseType (request f') = XHR.responseType (request f)
       /\ XHR.sent (request f') = XHR.sent (request f).
Proof.
  split.
  - clear Hfetch. revert w. induction trace as [|a trace IH]; intros w; [reflexivity|].
    cbn [run fold_left]. fold (run JSON_parse (step JSON_parse w a) trace).
    now rewrite IH, step_hint.
  - destruct (run_tags JSON_parse trace w) as [new Htags].
    assert (Hlook : map tag (fetches (run JSON_parse w trace)) !! rid = Some (tag f)).
    { rewrite Htags, lookup_app_l.
      - now rewrite list_lookup_fmap, Hfetch.
      - rewrite length_map. eapply lookup_lt_Some; eauto. }
    rewrite list_lookup_fmap in Hlook.
    destruct (fetches (run JSON_parse w trace) !! rid) as [f'|]; [|discriminate].
    exists f'. split; [reflexivity|]. cbn in Hlook. unfold tag in Hlook.
    injection Hlook as Hurl Hindex Htype Hsent. auto.
Qed.

Lemma step_foreign w aid a act :
  alls w !! aid = Some a ->
  match target act with
  | Some rid => is_member rid a = false
  | None => True
  end ->
  alls (step JSON_parse w act) !! aid = Some a.
Proof.
  intros Ha Hforeign.
  destruct act as [v|cb|cb|rid st tx rp|rid loaded total|rid]; cbn [step target] in *.
  - rewrite load_alls, lookup_app_l; [assumption | eapply lookup_lt_Some; eauto].
  - assumption.
  - assumption.
  - unfold fire_load. repeat case_match; try assumption.
    apply apply_effect_alls_lookup; [|assumption]. now rewrite set_request_alls.
  - now rewrite fire_progress_alls.
  - unfold fire_error. repeat case_match; try assumption.
    now apply apply_effect_alls_lookup.
Qed.

(** Loads on one loader do not interfere.  The promise [Promise.all] built
    for one array is left exactly as it is by every completion and failure
    of a request that is not one of its members, and by every other load,
    registration and progress notification. *)
Theorem aggregate_ignores_other_requests trace : forall w aid a
  (Haggregate : alls w !! aid = Some a)
  (Hforeign :
     forallb (fun act => match target act with
                         | Some rid => negb (is_member rid a)
                         | None => true
                         end) trace = true),
  alls (run JSON_parse w trace) !! aid = Some a.
Proof.
  induction trace as [|act trace IH]; intros w aid a Ha Htrace; [assumption|].
  cbn [forallb] in Htrace. apply andb_true_iff in Htrace as [Hact Htrace].
  cbn [run fold_left]. fold (run JSON_parse (step JSON_parse w act) trace).
  apply IH; [|assumption].
  apply step_foreign; [assumption|].
  destruct (target act); [now apply negb_true_iff | exact I].
Qed.

End Edges.

(** *** An array with a member that is not a URL *)

Lemma member_states_new fs new :
  member_states (fs ++ new) (seq (length fs) (length new)) = map promise new.
Proof.
  apply list_eq. intros i. unfold member_states. rewrite !list_lookup_fmap.
  destruct (decide (i < length new)) as [Hlt|Hge].
  - rewrite lookup_seq_lt by assumption. cbn.
    destruct (lookup_lt_is_Some_2 new i Hlt) as [f Hf]. rewrite Hf. cbn.
    unfold promise_of.
    now rewrite lookup_app_r, Nat.add_comm, Nat.add_sub, Hf by lia.
  - rewrite lookup_seq_ge by lia. now rewrite lookup_ge_None_2 by lia.
Qed.

Lemma first_rejected_at l : forall i e,
  l !! i = Some (Rejected e) ->
  (forall j e', j < i -> l !! j <> Some (Rejected e')) ->
  first_rejected l = Some e.
Proof.
  induction l as [|p l IH]; intros [|i] e Hi Hbefore; try discriminate.
  - cbn in Hi. injection Hi as ->. reflexivity.
  - cbn in Hi. destruct p as [|v|e0]; cbn [first_rejected].
    + apply (IH i); [assumption|]. intros j e' Hj. apply (Hbefore (S j)). lia.
    + apply (IH i); [assumption|]. intros j e' Hj. apply (Hbefore (S j)). lia.
    + exfalso. apply (Hbefore 0 e0); [lia | reflexivity].
Qed.

Lemma new_Promise_no_hint L url index :
  truthy (responseType L) = false ->
  (promise (new_Promise L url index), XHR.sent (request (new_Promise L url index)))
  = match call_indexOf url suffix (position L) with
    | Normal _ => (Pending, true)
    | Throw e => (Rejected e, false)
    end.
Proof. intros Hhint. now rewrite new_Promise_outcome, Hhint. Qed.

(** On a loader without hint, an array with a member that is neither a
    string nor an array ([undefined], [null], a number), the members
    before it being strings or arrays, gives a promise that is rejected as
    soon as [load] returns, with the TypeError that member raised, before
    the transport did anything.  The members that are strings or arrays
    are requested nevertheless: each is sent, its own promise pending. *)
Theorem batch_with_a_non_url_is_rejected_at_once w urls i u e
  (Hhint : truthy (responseType (this w)) = false)
  (Hmember : urls !! i = Some u)
  (Hraises : call_indexOf u suffix (position (this w)) = Throw e)
  (Hbefore : forall j u' e',
      j < i -> urls !! j = Some u' ->
      call_indexOf u' suffix (position (this w)) <> Throw e') :
  alls (snd (load (VArray urls) w)) !! length (alls w)
  = Some {| members := seq (length (fetches w)) (length urls); outcome := Rejected e |}
  /\ forall j u' k,
       urls !! j = Some u' ->
       call_indexOf u' suffix (position (this w)) = Normal k ->
       exists f,
         fetches (snd (load (VArray urls) w)) !! (length (fetches w) + j) = Some f
         /\ XHR.url (request f) = u'
         /\ XHR.sent (request f) = true
         /\ promise f = Pending.
Proof.
  assert (Hnew : forall j u',
             urls !! j = Some u' ->
             dispatched (this w) (VArray urls) !! j
             = Some (new_Promise (this w) u' (VNum (of_nat j)))).
  { intros j u' Hj. cbn [dispatched]. now rewrite list_lookup_imap, Hj. }
  split.
  - rewrite load_alls, lookup_app_r, Nat.sub_diag by lia. cbn [aggregated lookup].
    cbn. do 2 f_equal.
    rewrite <- (length_imap (fun i url => new_Promise (this w) url (VNum (of_nat i))) urls).
    change (imap (fun i url => new_Promise (this w) url (VNum (of_nat i))) urls)
      with (dispatched (this w) (VArray urls)).
    rewrite member_states_new. unfold Promise_all_init.
    rewrite (first_rejected_at _ i e); [reflexivity | |].
    + rewrite list_lookup_fmap, (Hnew _ _ Hmember). cbn. f_equal.
      pose proof (new_Promise_no_hint (this w) u (VNum (of_nat i)) Hhint) as Hout.
      rewrite Hraises in Hout. now injection Hout.
    + intros j e' Hj Hrej. rewrite list_lookup_fmap in Hrej.
      destruct (lookup_lt_is_Some_2 urls j) as [u' Hu'].
      { apply lookup_lt_Some in Hmember. lia. }
      rewrite (Hnew _ _ Hu') in Hrej. cbn in Hrej.
      pose proof (new_Promise_no_hint (this w) u' (VNum (of_nat j)) Hhint) as Hout.
      destruct (call_indexOf u' suffix (position (this w))) as [k|e0] eqn:Hcall.
      * injection Hout as Hp _. congruence.
      * eapply Hbefore; eauto.
  - intros j u' k Hj Hcall.
    exists (new_Promise (this w) u' (VNum (of_nat j))).
    pose proof (new_Promise_no_hint (this w) u' (VNum (of_nat j)) Hhint) as Hout.
    rewrite Hcall in Hout. injection Hout as Hp Hsent.
    split; [|split; [apply new_Promise_url | split; assumption]].
    rewrite load_fetches, lookup_app_r, Nat.add_comm, Nat.add_sub by lia.
    now apply Hnew.
Qed.

(** *** Registrations and outcomes *)

Section Outcomes.

Variable JSON_parse : string -> completion value.

Lemma dispatched_hint L1 L2 v :
  responseType L1 = responseType L2 -> dispatched L1 v = dispatched L2 v.
Proof. destruct L1, L2. cbn [responseType]. intros ->. reflexivity. Qed.

Lemma settle_outcomes rid s w1 w2 :
  fetches w1 = fetches w2 -> alls w1 = alls w2 ->
  fetches (settle rid s w1) = fetches (settle rid s w2)
  /\ alls (settle rid s w1) = alls (settle rid s w2).
Proof.
  intros Hf Ha. unfold settle. rewrite Hf, Ha.
  repeat case_match; cbn [fetches alls]; auto.
Qed.

Lemma apply_effect_outcomes rid e w1 w2 :
  fetches w1 = fetches w2 -> alls w1 = alls w2 ->
  (forall f arg, e <> Calls f arg) ->
  fetches (apply_effect rid e w1) = fetches (apply_effect rid e w2)
  /\ alls (apply_effect rid e w1) = alls (apply_effect rid e w2).
Proof.
  intros Hf Ha Hno. destruct e; cbn [apply_effect fetches alls]; auto using settle_outcomes.
Qed.

Lemma set_request_outcomes rid r w1 w2 :
  fetches w1 = fetches w2 -> alls w1 = alls w2 ->
  fetches (set_request rid r w1) = fetches (set_request rid r w2)
  /\ alls (set_request rid r w1) = alls (set_request rid r w2).
Proof.
  intros Hf Ha. unfold set_request. rewrite Hf.
  destruct (fetches w2 !! rid); cbn [fetches alls]; auto.
Qed.

Lemma step_outcomes a w1 w2 :
  is_registration a = false ->
  responseType (this w1) = responseType (this w2) ->
  fetches w1 = fetches w2 -> alls w1 = alls w2 ->
  fetches (step JSON_parse w1 a) = fetches (step JSON_parse w2 a)
  /\ alls (step JSON_parse w1 a) = alls (step JSON_parse w2 a).
Proof.
  intros Ha Hhint Hf Hal.
  destruct a as [v|cb|cb|rid st tx rp|rid loaded total|rid]; try discriminate; cbn [step].
  - rewrite !load_fetches, !load_alls, Hf, Hal, (dispatched_hint _ _ v Hhint).
    split; [reflexivity|]. f_equal.
    destruct v; cbn [aggregated]; try reflexivity.
    now rewrite Hf, (dispatched_hint _ _ (VArray elems) Hhint).
  - unfold fire_load. rewrite Hf. destruct (fetches w2 !! rid) as [f|]; [|auto].
    destruct (XHR.sent (request f)); [|auto].
    pose proof (load_listener_no_call JSON_parse (XHR.complete st tx rp (request f))) as Hno.
    destruct (load_listener JSON_parse (XHR.complete st tx rp (request f))) as [r e].
    cbn [snd] in Hno.
    destruct (set_request_outcomes rid r w1 w2 Hf Hal) as [Hf' Hal'].
    apply apply_effect_outcomes; assumption.
  - now rewrite !fire_progress_fetches, !fire_progress_alls.
  - unfold fire_error. rewrite Hf. destruct (fetches w2 !! rid) as [f|]; [|auto].
    destruct (XHR.sent (request f)); [|auto].
    apply apply_effect_outcomes; [assumption | assumption | discriminate].
Qed.

Lemma run_outcomes trace : forall w1 w2,
  responseType (this w1) = responseType (this w2) ->
  fetches w1 = fetches w2 -> alls w1 = alls w2 ->
  fetches (run JSON_parse w1 trace)
  = fetches (run JSON_parse w2 (List.filter (fun a => negb (is_registration a)) trace))
  /\ alls (run JSON_parse w1 trace)
     = alls (run JSON_parse w2 (List.filter (fun a => negb (is_registration a)) trace)).
Proof.
  induction trace as [|a trace IH]; intros w1 w2 Hhint Hf Hal; [auto|].
  cbn [run fold_left List.filter]. fold (run JSON_parse (step JSON_parse w1 a) trace).
  destruct (is_registration a) eqn:Ha; cbn [negb].
  - apply IH.
    + now rewrite step_hint.
    + destruct a; try discriminate; assumption.
    + destruct a; try discriminate; assumption.
  - cbn [run fold_left].
    fold (run JSON_parse (step JSON_parse w2 a)
            (List.filter (fun a => negb (is_registration a)) trace)).
    destruct (step_outcomes a w1 w2 Ha Hhint Hf Hal) as [Hf' Hal'].
    apply IH; [|assumption|assumption].
    now rewrite !step_hint.
Qed.

(** Registering, replacing or removing the progress callback has no effect
    on what is loaded: the requests, the state of every promise and the
    outcome of every aggregate after a trace are those of the same trace
    with all its registrations taken out. *)
Theorem registrations_do_not_affect_outcomes w trace :
  fetches (run JSON_parse w trace)
  = fetches (run JSON_parse w (List.filter (fun a => negb (is_registration a)) trace))
  /\ alls (run JSON_parse w trace)
     = alls (run JSON_parse w (List.filter (fun a => negb (is_registration a)) trace)).
Proof.
  destruct (run_outcomes trace w w eq_refl eq_refl eq_refl) as [Hfetches Halls].
  split; assumption.
Qed.

End Outcomes.

(** *** The further properties at work *)

(** ['sound.wav'] was loaded with status 200; a failure and a 404 that
    the transport would report afterwards do not change the result. *)
Lemma settled_promise_is_final_witness :
  promise_of
    (fetches (run JSON.parse
                (step JSON.parse one_fetch (XhrLoad 0 200 "OK" (VArrayBuffer [82; 73]%N)))
                [XhrError 0; XhrLoad 0 404 "Not Found" VNull])) 0
  = Fulfilled (VArrayBuffer [82; 73]%N).
Proof.
  refine (settled_promise_is_final JSON.parse
            [XhrError 0; XhrLoad 0 404 "Not Found" VNull]
            (step JSON.parse one_fetch (XhrLoad 0 200 "OK" (VArrayBuffer [82; 73]%N)))
            0 _ eq_refl _).
  discriminate.
Defined.

(** The string ['log'] assigned to [progressCallback]: a progress
    notification for ['sound.wav'] raises a TypeError. *)
Lemma non_function_callback_throws_witness :
  uncaught
    (step JSON.parse
       (run JSON.parse (new_Loader VUndefined)
          [SetProgressCallback (VStr "log"); Load (VStr "sound.wav")])
       (XhrProgress 0 256 1024))
  = [TypeError "this.progressCallback is not a function"].
Proof.
  rewrite (non_function_callback_throws JSON.parse
             (run JSON.parse (new_Loader VUndefined)
                [SetProgressCallback (VStr "log"); Load (VStr "sound.wav")])
             0 _ 256 1024 eq_refl eq_refl eq_refl).
  - reflexivity.
  - intros cb. discriminate.
Defined.

(** A new loader on which nothing is registered. *)
Lemma silent_without_callback_witness :
  calls (run JSON.parse (new_Loader VUndefined)
           [Load (VStr "sound.wav"); XhrProgress 0 256 1024;
            XhrLoad 0 200 "OK" (VArrayBuffer [])])
  = [].
Proof.
  exact (silent_without_callback JSON.parse
           [Load (VStr "sound.wav"); XhrProgress 0 256 1024;
            XhrLoad 0 200 "OK" (VArrayBuffer [])]
           (new_Loader VUndefined) eq_refl eq_refl).
Defined.

(** The request of ['b.bin'], second of two files, after a registration, a
    completion and another load. *)
Lemma request_is_fixed_at_dispatch_witness :
  exists f',
    fetches (run JSON.parse two_fetches
               [OnProgress (VFunction 1); XhrLoad 1 200 "OK" (VArrayBuffer []);
                Load (VStr "c.json")]) !! 1 = Some f'
    /\ XHR.url (request f') = VStr "b.bin"
    /\ XHR.index (request f') = VNum (of_nat 1)
    /\ XHR.responseType (request f') = VStr "arraybuffer"
    /\ XHR.sent (request f') = true.
Proof.
  exact (proj2 (request_is_fixed_at_dispatch JSON.parse two_fetches
                  [OnProgress (VFunction 1); XhrLoad 1 200 "OK" (VArrayBuffer []);
                   Load (VStr "c.json")]
                  1
                  {| request := XHR.send (XHR.set_responseType (VStr "arraybuffer")
                                            (XHR.set_index (VNum (of_nat 1))
                                               (XHR.open (VStr "b.bin"))));
                     promise := Pending |}
                  eq_refl)).
Defined.

(** Two files and, on the same loader, ['sound.wav']: what happens to
    ['sound.wav'] leaves the promise of the two files pending. *)
Lemma aggregate_ignores_other_requests_witness :
  alls (run JSON.parse
          (run JSON.parse two_fetches [Load (VStr "sound.wav")])
          [XhrProgress 2 256 1024; XhrLoad 2 500 "Internal Server Error" VNull;
           XhrError 2; Load (VArray [])]) !! 0
  = Some {| members := [0; 1]; outcome := Pending |}.
Proof.
  exact (aggregate_ignores_other_requests JSON.parse
           [XhrProgress 2 256 1024; XhrLoad 2 500 "Internal Server Error" VNull;
            XhrError 2; Load (VArray [])]
           (run JSON.parse two_fetches [Load (VStr "sound.wav")])
           0 {| members := [0; 1]; outcome := Pending |} eq_refl eq_refl).
Defined.

(** [load(['a.wav', undefined, 'c.wav'])] on a loader without hint. *)
Lemma batch_with_a_non_url_is_rejected_at_once_witness :
  alls hole_in_batch !! 0
  = Some {| members := [0; 1; 2];
            outcome := Rejected (TypeError "Cannot read properties of undefined or null") |}.
Proof.
  refine (proj1 (batch_with_a_non_url_is_rejected_at_once (new_Loader VUndefined)
                   [VStr "a.wav"; VUndefined; VStr "c.wav"] 1 VUndefined
                   (TypeError "Cannot read properties of undefined or null")
                   eq_refl eq_refl eq_refl _)).
  intros j u' e' Hj Hu'. destruct j as [|j]; [|lia].
  cbn in Hu'. injection Hu' as <-. discriminate.
Defined.

(** *** A loader with a hint *)

Lemma dispatched_lookup L v i f :
  dispatched L v !! i = Some f -> exists url index, f = new_Promise L url index.
Proof.
  intros Hi.
  assert (Hone : forall u, [new_Promise L u VUndefined] !! i = Some f ->
                           exists url index, f = new_Promise L url index).
  { intros u Hu. destruct i; [|discriminate]. injection Hu as <-. eauto. }
  destruct v; cbn [dispatched] in Hi; eauto; try discriminate.
  rewrite list_lookup_imap in Hi.
  destruct (elems !! i) as [u|]; [|discriminate]. injection Hi as <-. eauto.
Qed.

(** On a loader whose hint is one of the content types of the transport,
    every request [load] creates is given the hint, whatever its URL (one
    that contains ['.json'] included), and every one is sent with its
    promise pending: the URL is not examined, so that an argument that is
    not a string raises no TypeError here. *)
Theorem hinted_loader_requests_the_hint w hint fileURLs i f
  (Hhint : In hint content_types)
  (Hloader : responseType (this w) = VStr hint)
  (Hfetch : dispatched (this w) fileURLs !! i = Some f) :
  fetches (snd (load fileURLs w)) !! (length (fetches w) + i) = Some f
  /\ XHR.responseType (request f) = VStr hint
  /\ XHR.sent (request f) = true
  /\ promise f = Pending.
Proof.
  assert (Htruthy : truthy (responseType (this w)) = true).
  { rewrite Hloader. cbn in Hhint. intuition (subst; reflexivity). }
  split.
  - now rewrite load_fetches, lookup_app_r, Nat.add_comm, Nat.add_sub by lia.
  - destruct (dispatched_lookup _ _ _ _ Hfetch) as (url & index & ->).
    unfold new_Promise, executor, choose_responseType.
    rewrite Htruthy, Hloader. auto.
Qed.

(** The second file of [load(['presets/room.json', null])] on a loader
    constructed with ['text']: [null] is requested, as text. *)
Lemma hinted_loader_requests_the_hint_witness :
  fetches text_loader !! 1
  = Some (new_Promise (constructor (VStr "text")) VNull (VNum (of_nat 1)))
  /\ XHR.responseType
       (request (new_Promise (constructor (VStr "text")) VNull (VNum (of_nat 1))))
     = VStr "text"
  /\ XHR.sent (request (new_Promise (constructor (VStr "text")) VNull (VNum (of_nat 1))))
     = true
  /\ promise (new_Promise (constructor (VStr "text")) VNull (VNum (of_nat 1))) = Pending.
Proof.
  exact (hinted_loader_requests_the_hint (new_Loader (VStr "text")) "text"
           (VArray [VStr "presets/room.json"; VNull]) 1
           (new_Promise (constructor (VStr "text")) VNull (VNum (of_nat 1)))
           (or_intror (or_intror (or_intror (or_intror (or_introl eq_refl)))))
           eq_refl eq_refl).
Defined.

(** *** A string for a json request *)

Section StringPayload.

Variable JSON_parse : string -> completion value.

(** A sent request of type json that completes with status 200, 304 or 0
    and a string as payload never settles its promise, whatever the
    string.  When the parser throws on it, its exception leaves the
    listener; when the parser accepts it, the write of the parsed value to
    [request.response] throws the TypeError of a read-only attribute, and
    [resolve] is not reached.  Either way one exception is reported and
    the promise is as before. *)
Theorem string_payload_on_json_request_never_settles w rid f st tx text
  (Hfetch : fetches w !! rid = Some f)
  (Hsent : XHR.sent (request f) = true)
  (Hstatus : accepted st = true)
  (Hjson : XHR.responseType (request f) = VStr "json") :
  promise_of (fetches (step JSON_parse w (XhrLoad rid st tx (VStr text)))) rid = promise f
  /\ alls (step JSON_parse w (XhrLoad rid st tx (VStr text))) = alls w
  /\ uncaught (step JSON_parse w (XhrLoad rid st tx (VStr text)))
     = uncaught w
       ++ [match JSON_parse text with
           | Throw e => e
           | Normal _ =>
               TypeError
                 "Cannot set property response of #<XMLHttpRequest> which has only a getter"
           end].
Proof.
  assert (Hlistener :
            load_listener JSON_parse (XHR.complete st tx (VStr text) (request f))
            = (XHR.complete st tx (VStr text) (request f),
               Escapes match JSON_parse text with
                       | Throw e => e
                       | Normal _ =>
                           TypeError
                             "Cannot set property response of #<XMLHttpRequest> which has only a getter"
                       end)).
  { unfold load_listener, XHR.set_response.
    cbn [XHR.complete XHR.status XHR.responseType XHR.response]. rewrite Hstatus, Hjson.
    cbn. now destruct (JSON_parse text). }
  split; [|split].
  - cbn [step]. rewrite (fire_load_promise _ _ _ _ _ _ _ _ Hfetch Hsent).
    rewrite decide_True by reflexivity. rewrite Hlistener. cbn.
    now destruct (promise f).
  - cbn [step]. unfold fire_load. rewrite Hfetch, Hsent, Hlistener.
    cbn [apply_effect alls]. apply set_request_alls.
  - cbn [step]. unfold fire_load. rewrite Hfetch, Hsent, Hlistener.
    cbn [apply_effect uncaught]. unfold set_request. now rewrite Hfetch.
Qed.

End StringPayload.

(** ['a.json'], first of two files, arrives as the text of an object: the
    text is parsed, the write of the result throws, and the promises of
    the file and of the two files stay pending. *)
Lemma string_payload_on_json_request_never_settles_witness :
  promise_of (fetches (step JSON.parse two_fetches (XhrLoad 0 200 "OK" (VStr x_is_1)))) 0
  = Pending
  /\ map outcome (alls (step JSON.parse two_fetches (XhrLoad 0 200 "OK" (VStr x_is_1))))
     = [Pending]
  /\ uncaught (step JSON.parse two_fetches (XhrLoad 0 200 "OK" (VStr x_is_1)))
     = [TypeError "Cannot set property response of #<XMLHttpRequest> which has only a getter"].
Proof.
  destruct (string_payload_on_json_request_never_settles JSON.parse two_fetches 0
              {| request := XHR.send (XHR.set_responseType (VStr "json")
                                        (XHR.set_index (VNum (of_nat 0))
                                           (XHR.open (VStr "a.json"))));
                 promise := Pending |}
              200 "OK" x_is_1 eq_refl eq_refl eq_refl eq_refl)
    as (Hpromise & Halls & Huncaught).
  split; [exact Hpromise | split; [now rewrite Halls | exact Huncaught]].
Defined.
